(** * pspg: the PostgreSQL client of the pager (src/pgclient.c)

    A shallow embedding of [push_row], [column_type_class], [field_info],
    [max_int] and [pg_exec_query], and the properties of the row store and
    of the column layout that the specification states about them. *)

From Stdlib Require Import ZArith Lia Ascii String.
From stdpp Require Import base option list.

Local Open Scope Z_scope.

(** ** C data *)

(** [int] is a 32-bit two's complement integer; arithmetic on it is written
    in [Z] and brought back into range by [int_wrap]. *)
Definition INT_MAX : Z := 2147483647.

Definition int_wrap (z : Z) : Z := (z + 2147483648) mod 4294967296 - 2147483648.

(** [size_t] is a 64-bit unsigned integer. *)
Definition size_t_wrap (z : Z) : Z := z mod 18446744073709551616.

Definition NUL : ascii := "000"%char.
Definition NL : ascii := "010"%char.

(** A [char *] that designates text is the list of the characters found at
    the pointer; C reads it up to the first NUL (or to the end of the list,
    where the terminator is implicit). *)
Fixpoint c_str (s : list ascii) : list ascii :=
  match s with
  | [] => []
  | c :: s' => if Ascii.eqb c NUL then [] else c :: c_str s'
  end.

Definition strlen (s : list ascii) : Z := Z.of_nat (length (c_str s)).

(** A cell of memory obtained from [malloc] holds nothing until it is
    written: [None] is the indeterminate content. *)
Abbreviation array A := (list (option A)) (only parsing).

Definition array_new {A : Type} (n : Z) : array A := replicate (Z.to_nat n) None.

(** [a[i] = x]; a write outside the array is undefined in C and is [None]
    here. *)
Definition array_set {A : Type} (a : array A) (i : Z) (x : A) : option (array A) :=
  if (0 <=? i) && (i <? Z.of_nat (length a))
  then Some (<[Z.to_nat i := Some x]> a)
  else None.

(** [a[i]]; reading outside the array or reading an indeterminate cell is
    [None]. *)
Definition array_get {A : Type} (a : array A) (i : Z) : option A :=
  if 0 <=? i then mjoin (a !! Z.to_nat i) else None.

(** ** pspg.h: rows, buckets, layout, options *)

(** [RowType]: the number of fields and, per field, a pointer into the one
    buffer that holds the texts of the row.  The buffer is reachable only
    through these pointers and is not written once the row is complete, so
    the row carries it, and a field pointer is an offset into it. *)
Record RowType : Type := mkRow {
  row_nfields : Z;
  fields : array Z;
  payload : array ascii
}.

Abbreviation ptr := nat (only parsing).

(** [RowBucketType]: 1000 row slots, the parallel multiline flags and the
    link to the next bucket. *)
Record RowBucketType : Type := mkBucket {
  nrows : Z;
  rows : array RowType;
  multilines : array bool;
  allocated : bool;
  next_bucket : option ptr
}.

(** The buckets live in a heap; a [RowBucketType *] is an index into it and
    [malloc] extends it by one block. *)
Abbreviation heap := (list RowBucketType) (only parsing).

Record PrintDataDesc : Type := mkDesc {
  pd_nfields : Z;
  has_header : bool;
  types : list ascii;
  widths : list Z;
  pd_multilines : list bool
}.

Record Options : Type := mkOptions {
  force8bit : bool;
  query : list ascii
}.

(** ** push_row *)

Inductive push_result : Type :=
| PushNull (h : heap)                (* [return NULL] *)
| PushRb (h : heap) (rb : ptr)       (* [return rb] *)
| PushUndefined.                     (* invalid pointer or slot outside the arrays *)

(** Lines 54-55: the two writes at slot [rb->nrows] and the increment. *)
Definition write_slot (h : heap) (rb : ptr) (row : RowType) (is_multiline : bool)
  : push_result :=
  match h !! rb with
  | None => PushUndefined
  | Some b =>
      match array_set (rows b) (nrows b) row,
            array_set (multilines b) (nrows b) is_multiline with
      | Some rs, Some ms =>
          PushRb (<[rb := mkBucket (int_wrap (nrows b + 1)) rs ms
                                   (allocated b) (next_bucket b)]> h) rb
      | _, _ => PushUndefined
      end
  end.

(** [malloc_ok] is the answer of [malloc] should the call be made. *)
Definition push_row (malloc_ok : bool) (h : heap) (rb : ptr) (row : RowType)
    (is_multiline : bool) : push_result :=
  match h !! rb with
  | None => PushUndefined
  | Some b =>
      if nrows b >=? 1000 then
        if malloc_ok then
          let new := length h in
          let fresh := mkBucket 0 (array_new 1000) (array_new 1000) true None in
          let linked := mkBucket (nrows b) (rows b) (multilines b)
                                 (allocated b) (Some new) in
          write_slot (<[rb := linked]> h ++ [fresh]) new row is_multiline
        else PushNull h
      else write_slot h rb row is_multiline
  end.

(** ** column_type_class *)

(** The type identifiers come from PostgreSQL's catalog header
    (server/catalog/pg_type_d.h), which is not part of the repository: they
    are a parameter of the development. *)
Record pg_type_d : Type := mkOids {
  INT2OID : Z; INT4OID : Z; INT8OID : Z; FLOAT4OID : Z; FLOAT8OID : Z;
  NUMERICOID : Z; OIDOID : Z; XIDOID : Z; CIDOID : Z; CASHOID : Z
}.

Definition column_type_class (oid : pg_type_d) (ftype : Z) : ascii :=
  if (ftype =? INT2OID oid) || (ftype =? INT4OID oid) || (ftype =? INT8OID oid)
     || (ftype =? FLOAT4OID oid) || (ftype =? FLOAT8OID oid)
     || (ftype =? NUMERICOID oid) || (ftype =? OIDOID oid)
     || (ftype =? XIDOID oid) || (ftype =? CIDOID oid) || (ftype =? CASHOID oid)
  then "d"%char else "a"%char.

(** ** field_info and max_int *)

(** Modelled from the spec: [utf_string_dsplen_multiline] of unicode.c is
    not among the sources.  Section 4.1 describes the width calculator as a
    function of the text that returns the widest line and the flag "the
    text has a line break"; the function is kept abstract with that
    interface: text, byte bound and [first_only] in, and out the result,
    the value stored to [*multiline] and the two counters. *)
Definition utf_dsplen_fn : Type := list ascii -> Z -> bool -> Z * bool * Z * Z.

(** The [force8bit] loop, lines 104-116, from the state [(cw, width)] and
    the current content of [*multiline]. *)
Fixpoint field_info_8bit (str : list ascii) (multiline : bool) (cw width : Z)
  : Z * bool :=
  match str with
  | [] => (if cw >? width then cw else width, multiline)
  | c :: str' =>
      if Ascii.eqb c NUL then (if cw >? width then cw else width, multiline)
      else if Ascii.eqb c NL
           then field_info_8bit str' true 0 (if cw >? width then cw else width)
           else field_info_8bit str' multiline (int_wrap (cw + 1)) width
  end.

(** [field_info opts str &multiline]: the returned width and the content of
    [*multiline] after the call, from its content before the call. *)
Definition field_info (utf_string_dsplen_multiline : utf_dsplen_fn)
    (opts : Options) (str : list ascii) (multiline : bool) : Z * bool :=
  if force8bit opts then field_info_8bit str multiline 0 0
  else
    let '(result, ml, _, _) := utf_string_dsplen_multiline str (strlen str) false in
    (result, ml).

Definition max_int (a b : Z) : Z := if a >? b then a else b.

(** ** The environment of pg_exec_query *)

(** What libpq and the allocator answer during one call.  The server's
    reply to [opts->query] is fixed for the call, so the accessors of
    [PGresult] are functions of the indices alone. *)
Record Source : Type := mkSource {
  connection_ok : bool;                (* PQstatus(conn) == CONNECTION_OK *)
  connect_error : list ascii;          (* PQerrorMessage(conn) after the connect *)
  tuples_ok : bool;                    (* PQresultStatus(result) == PGRES_TUPLES_OK *)
  exec_error : list ascii;             (* PQerrorMessage(conn) after PQexec *)
  PQnfields : Z;
  PQftype : Z -> Z;
  PQfname : Z -> list ascii;
  PQntuples : Z;
  PQgetvalue : Z -> Z -> list ascii;
  malloc_ok : nat -> bool              (* does the k-th call of malloc succeed *)
}.

(** The calls that acquire, release or terminate, in the order made. *)
Inductive event : Type :=
| PQconnectdbParams
| PQexec (q : list ascii)
| PQclear (held : bool)                (* [held]: [result] was not NULL *)
| PQfinish
| leave_ncurses (msg : string).

(** The values [*err] can take. *)
Inductive err_ptr : Type :=
| ErrNULL
| ErrBuffer                            (* the address of the global [errmsg] *)
| ErrOther (s : list ascii).           (* what the caller had put there *)

Record state : Type := mkState {
  st_heap : heap;
  st_pdesc : PrintDataDesc;
  st_err : err_ptr;                    (* [*err] *)
  st_errmsg : list ascii;              (* the text in [char errmsg[1024]] *)
  st_trace : list event;
  st_nmalloc : nat                     (* calls of malloc so far *)
}.

(** How a call of [pg_exec_query] ends. *)
Inductive outcome : Type :=
| Returned (ret : bool) (s : state)
| Exited (s : state)                   (* the process has terminated *)
| Undefined.                           (* undefined behaviour *)

(** Computations over [state] that may end the call early. *)
Definition M (A : Type) : Type := state -> (A * state) + outcome.

Definition ret {A : Type} (a : A) : M A := fun s => inl (a, s).

Definition bind {A B : Type} (m : M A) (k : A -> M B) : M B :=
  fun s => match m s with
           | inl (a, s') => k a s'
           | inr o => inr o
           end.

Notation "'let*' x ':=' m 'in' k" := (bind m (fun x => k))
  (at level 10, x name, m at level 99, k at level 200, only parsing).
Notation "'call' m ;; k" := (bind m (fun _ => k))
  (at level 10, m at level 99, k at level 200, only parsing).

Definition undefined {A : Type} : M A := fun _ => inr Undefined.

Definition return_ {A : Type} (b : bool) : M A := fun s => inr (Returned b s).

Definition get_pdesc : M PrintDataDesc := fun s => inl (st_pdesc s, s).

Definition put_pdesc (pd : PrintDataDesc) : M unit := fun s =>
  inl (tt, mkState (st_heap s) pd (st_err s) (st_errmsg s) (st_trace s) (st_nmalloc s)).

Definition put_heap (h : heap) : M unit := fun s =>
  inl (tt, mkState h (st_pdesc s) (st_err s) (st_errmsg s) (st_trace s) (st_nmalloc s)).

Definition set_err (p : err_ptr) : M unit := fun s =>
  inl (tt, mkState (st_heap s) (st_pdesc s) p (st_errmsg s) (st_trace s) (st_nmalloc s)).

Definition emit (e : event) : M unit := fun s =>
  inl (tt, mkState (st_heap s) (st_pdesc s) (st_err s) (st_errmsg s)
                   (st_trace s ++ [e]) (st_nmalloc s)).

(** [sprintf(errmsg, "<prefix>%s", arg)]: the text and its terminator must
    fit the 1024 bytes of the buffer. *)
Definition sprintf_errmsg (prefix : string) (arg : list ascii) : M unit := fun s =>
  let text := list_ascii_of_string prefix ++ c_str arg in
  if Z.of_nat (length text) <? 1024
  then inl (tt, mkState (st_heap s) (st_pdesc s) (st_err s) text
                        (st_trace s) (st_nmalloc s))
  else inr Undefined.

(** Modelled from the spec: [leave_ncurses] of pspg.c is not among the
    sources; by sections 4.6 and 7 the fatal path "terminates the process". *)
Definition call_leave_ncurses {A : Type} (msg : string) : M A := fun s =>
  inr (Exited (mkState (st_heap s) (st_pdesc s) (st_err s) (st_errmsg s)
                       (st_trace s ++ [leave_ncurses msg]) (st_nmalloc s))).

(** The three macros of lines 89-91; [held] tells whether [result] is set. *)
Definition EXIT_OUT_OF_MEMORY {A : Type} (held : bool) : M A :=
  call emit (PQclear held) ;; call emit PQfinish ;; call_leave_ncurses "out of memory".

Definition RELEASE_AND_LEAVE {A : Type} (held : bool) (p : err_ptr) : M A :=
  call emit (PQclear held) ;; call emit PQfinish ;; call set_err p ;; return_ false.

Definition RELEASE_AND_EXIT {A : Type} (held : bool) (msg : string) : M A :=
  call emit (PQclear held) ;; call emit PQfinish ;; call_leave_ncurses msg.

(** [malloc]: true when the block was obtained. *)
Definition malloc (src : Source) : M bool := fun s =>
  inl (malloc_ok src (st_nmalloc s),
       mkState (st_heap s) (st_pdesc s) (st_err s) (st_errmsg s) (st_trace s)
               (S (st_nmalloc s))).

(** The indices [0 .. n-1] of a counting loop. *)
Definition range (n : Z) : list Z := map Z.of_nat (seq 0 (Z.to_nat n)).

Fixpoint for_each {A : Type} (ix : list Z) (body : Z -> A -> option A) (a : A)
  : option A :=
  match ix with
  | [] => Some a
  | i :: ix' => match body i a with
                | Some a' => for_each ix' body a'
                | None => None
                end
  end.

(** Undefined behaviour of a pure step ends the call. *)
Definition defined {A : Type} (o : option A) : M A :=
  match o with Some a => ret a | None => undefined end.

(** ** The buffer of a row *)

(** Writing [bs] from offset [off] on; a byte outside the block is undefined. *)
Fixpoint write_bytes (buf : array ascii) (off : Z) (bs : list ascii)
  : option (array ascii) :=
  match bs with
  | [] => Some buf
  | c :: bs' => match array_set buf off c with
                | Some buf' => write_bytes buf' (off + 1) bs'
                | None => None
                end
  end.

(** [strcpy(buf + off, src)] copies the text and its terminator. *)
Definition strcpy (buf : array ascii) (off : Z) (src : list ascii)
  : option (array ascii) :=
  write_bytes buf off (c_str src ++ [NUL]).

(** The text a reader finds from the first cell on: the characters before
    the first NUL.  Leaving the block or meeting a cell never written is
    undefined. *)
Fixpoint read_text (cells : array ascii) : option (list ascii) :=
  match cells with
  | [] => None
  | None :: _ => None
  | Some c :: rest => if Ascii.eqb c NUL then Some []
                      else match read_text rest with
                           | Some s => Some (c :: s)
                           | None => None
                           end
  end.

Definition string_at (buf : array ascii) (off : Z) : option (list ascii) :=
  if 0 <=? off then read_text (drop (Z.to_nat off) buf) else None.

(** [row->fields[i]] read as text. *)
Definition row_field (r : RowType) (i : Z) : option (list ascii) :=
  match array_get (fields r) i with
  | Some off => string_at (payload r) off
  | None => None
  end.

(** Fixed-size arrays of [PrintDataDesc], which the caller owns. *)
Definition list_set {A : Type} (l : list A) (i : Z) (x : A) : option (list A) :=
  if (0 <=? i) && (i <? Z.of_nat (length l))
  then Some (<[Z.to_nat i := x]> l)
  else None.

Definition list_get {A : Type} (l : list A) (i : Z) : option A :=
  if 0 <=? i then l !! Z.to_nat i else None.

(** The locals of the loops that fill one row. *)
Record fill : Type := mkFill {
  f_buf : array ascii;                 (* the block [locbuf] was taken from *)
  f_locbuf : Z;                        (* [locbuf], as an offset into it *)
  f_fields : array Z;                  (* [row->fields] *)
  f_pdesc : PrintDataDesc;
  f_multiline_row : bool;
  f_multiline_col : bool
}.

(** [size = 0; for (...) size += strlen(text i) + 1;] with [int size]. *)
Definition row_size (text : Z -> list ascii) (n : Z) : Z :=
  fold_left (fun size i => int_wrap (size + strlen (text i) + 1)) (range n) 0.

Definition get_heap : M heap := fun s => inl (st_heap s, s).

Fixpoint for_M {A : Type} (ix : list Z) (body : Z -> A -> M A) (a : A) : M A :=
  match ix with
  | [] => ret a
  | i :: ix' => let* a' := body i a in for_M ix' body a'
  end.

Section pg_exec_query.

Variable utf_string_dsplen_multiline : utf_dsplen_fn.
Variable oid : pg_type_d.
Variable src : Source.
Variable opts : Options.

(** Line 185. *)
Definition set_type (i : Z) (pd : PrintDataDesc) : option PrintDataDesc :=
  ts ← list_set (types pd) i (column_type_class oid (PQftype src i));
  Some (mkDesc (pd_nfields pd) (has_header pd) ts (widths pd) (pd_multilines pd)).

(** Lines 206-215: one field of the header. *)
Definition store_header_field (i : Z) (f : fill) : option fill :=
  let name := PQfname src i in
  buf ← strcpy (f_buf f) (f_locbuf f) name;
  flds ← array_set (f_fields f) i (f_locbuf f);
  let locbuf := f_locbuf f + strlen name + 1 in
  off ← array_get flds i;
  str ← string_at buf off;
  let '(w, mc) := field_info utf_string_dsplen_multiline opts str (f_multiline_col f) in
  let pd := f_pdesc f in
  ws ← list_set (widths pd) i w;
  ms ← list_set (pd_multilines pd) i mc;
  Some (mkFill buf locbuf flds
               (mkDesc (pd_nfields pd) (has_header pd) (types pd) ws ms)
               (f_multiline_row f || mc) mc).

(** Lines 243-252: one field of data row [i]. *)
Definition store_data_field (i j : Z) (f : fill) : option fill :=
  let value := PQgetvalue src i j in
  buf ← strcpy (f_buf f) (f_locbuf f) value;
  flds ← array_set (f_fields f) j (f_locbuf f);
  let locbuf := f_locbuf f + strlen value + 1 in
  off ← array_get flds j;
  str ← string_at buf off;
  let '(w, mc) := field_info utf_string_dsplen_multiline opts str (f_multiline_col f) in
  let pd := f_pdesc f in
  old ← list_get (widths pd) j;
  ws ← list_set (widths pd) j (max_int old w);
  oldm ← list_get (pd_multilines pd) j;
  ms ← list_set (pd_multilines pd) j (oldm || mc);
  Some (mkFill buf locbuf flds
               (mkDesc (pd_nfields pd) (has_header pd) (types pd) ws ms)
               (f_multiline_row f || mc) mc).

(** [rb = push_row(rb, row, multiline_row); if (!rb) EXIT_OUT_OF_MEMORY();] *)
Definition push_or_exit (rb : ptr) (row : RowType) (is_multiline : bool) : M ptr :=
  fun s =>
    let calls_malloc := match st_heap s !! rb with
                        | Some b => nrows b >=? 1000
                        | None => false
                        end in
    let n := if calls_malloc then S (st_nmalloc s) else st_nmalloc s in
    match push_row (malloc_ok src (st_nmalloc s)) (st_heap s) rb row is_multiline with
    | PushUndefined => inr Undefined
    | PushNull h =>
        EXIT_OUT_OF_MEMORY true
          (mkState h (st_pdesc s) (st_err s) (st_errmsg s) (st_trace s) n)
    | PushRb h rb' =>
        inl (rb', mkState h (st_pdesc s) (st_err s) (st_errmsg s) (st_trace s) n)
    end.

(** Lines 225-257: data row [i]; the locals that survive an iteration are
    [rb] and [multiline_col]. *)
Definition store_tuple (nfields : Z) (i : Z) (loc : ptr * bool) : M (ptr * bool) :=
  let '(rb, multiline_col) := loc in
  let size := row_size (PQgetvalue src i) nfields in
  let* got := malloc src in
  if negb got then EXIT_OUT_OF_MEMORY true else
  let* got := malloc src in
  if negb got then EXIT_OUT_OF_MEMORY true else
  let* pd := get_pdesc in
  let* f := defined (for_each (range nfields) (store_data_field i)
                  (mkFill (array_new (size_t_wrap size)) 0 (array_new nfields)
                          pd false multiline_col)) in
  call put_pdesc (f_pdesc f) ;;
  let* rb' := push_or_exit rb (mkRow nfields (f_fields f) (f_buf f)) (f_multiline_row f) in
  ret (rb', f_multiline_col f).

(** [pg_exec_query(opts, rb, pdesc, err)] built with HAVE_POSTGRESQL.
    [multiline_col] is a local without initialiser: its first content
    [garbage] is whatever the stack holds. *)
Definition pg_exec_query (rb : ptr) (garbage : bool) : M bool :=
  let* h := get_heap in
  let* b := defined (h !! rb) in
  call put_heap (<[rb := mkBucket 0 (rows b) (multilines b) (allocated b) None]> h) ;;
  call emit PQconnectdbParams ;;
  if negb (connection_ok src) then
    call sprintf_errmsg "Connection to database failed: " (connect_error src) ;;
    RELEASE_AND_LEAVE false ErrBuffer
  else
  call emit (PQexec (query opts)) ;;
  if negb (tuples_ok src) then
    call sprintf_errmsg "Query doesn't return data: " (exec_error src) ;;
    RELEASE_AND_LEAVE true ErrBuffer
  else
  let nfields := PQnfields src in
  if nfields >? 1024 then RELEASE_AND_EXIT true "too much columns" else
  let* pd := get_pdesc in
  let* pd := defined (for_each (range nfields) set_type
                   (mkDesc nfields true (types pd) (widths pd) (pd_multilines pd))) in
  call put_pdesc pd ;;
  let size := row_size (PQfname src) nfields in
  let* got := malloc src in
  if negb got then EXIT_OUT_OF_MEMORY true else
  let* got := malloc src in
  if negb got then EXIT_OUT_OF_MEMORY true else
  let* f := defined (for_each (range nfields) store_header_field
                  (mkFill (array_new (size_t_wrap size)) 0 (array_new nfields)
                          pd false garbage)) in
  call put_pdesc (f_pdesc f) ;;
  let* rb := push_or_exit rb (mkRow nfields (f_fields f) (f_buf f)) (f_multiline_row f) in
  call for_M (range (PQntuples src)) (store_tuple nfields) (rb, f_multiline_col f) ;;
  call emit (PQclear true) ;;
  call emit PQfinish ;;
  call set_err ErrNULL ;;
  return_ true.

End pg_exec_query.

(** [pg_exec_query] built without HAVE_POSTGRESQL (lines 269-271): the
    assignment is to the parameter [err], a local of the callee; nothing is
    stored through it. *)
Definition pg_exec_query_without_postgresql : M bool :=
  return_ false.

(** ** The chain of buckets *)

(** The buckets met from [p] on along [next_bucket], each with its address.
    A chain without a cycle through a heap of [n] buckets has at most [n]
    of them, which bounds the walk. *)
Fixpoint walk (fuel : nat) (h : heap) (p : ptr) : option (list (ptr * RowBucketType)) :=
  match fuel with
  | O => None
  | S fuel' =>
      match h !! p with
      | None => None
      | Some b =>
          match next_bucket b with
          | None => Some [(p, b)]
          | Some q => match walk fuel' h q with
                      | Some bs => Some ((p, b) :: bs)
                      | None => None
                      end
          end
      end
  end.

Definition chain (h : heap) (head : ptr) : option (list (ptr * RowBucketType)) :=
  walk (length h) h head.

(** Every bucket but the last holds exactly 1000 rows; the last holds
    between 0 and 1000. *)
Fixpoint only_last_partial (bs : list (ptr * RowBucketType)) : bool :=
  match bs with
  | [] => false
  | (_, b) :: bs' =>
      match bs' with
      | [] => (0 <=? nrows b) && (nrows b <=? 1000)
      | _ :: _ => (nrows b =? 1000) && only_last_partial bs'
      end
  end.

(** The chain from [head] exists, ends in the bucket at [tail], and only
    that bucket may be partially filled. *)
Definition chain_invariant (h : heap) (head tail : ptr) : bool :=
  match chain h head with
  | Some bs => only_last_partial bs
               && match last bs with
                  | Some (t, _) => Nat.eqb t tail
                  | None => false
                  end
  | None => false
  end.

(** The rows of a bucket with their flags, slot 0 first. *)
Definition bucket_records (b : RowBucketType) : option (list (RowType * bool)) :=
  mapM (fun i => match array_get (rows b) i, array_get (multilines b) i with
                 | Some r, Some m => Some (r, m)
                 | _, _ => None
                 end)
       (range (nrows b)).

(** The forward traversal of the store: buckets in chain order, rows in slot
    order. *)
Definition stored_records (h : heap) (head : ptr) : option (list (RowType * bool)) :=
  match chain h head with
  | Some bs => (fun rss => concat rss) <$> mapM (fun pb => bucket_records (snd pb)) bs
  | None => None
  end.

(** The caller's use of [push_row], lines 218 and 255: [rb] is replaced by
    the returned bucket before the next row.  Here every allocation
    succeeds. *)
Fixpoint push_rows (h : heap) (rb : ptr) (rs : list (RowType * bool)) : push_result :=
  match rs with
  | [] => PushRb h rb
  | (row, is_multiline) :: rs' =>
      match push_row true h rb row is_multiline with
      | PushRb h' rb' => push_rows h' rb' rs'
      | other => other
      end
  end.

Definition empty_bucket : RowBucketType :=
  mkBucket 0 (array_new 1000) (array_new 1000) false None.

(** The bucket after a row has been written to its next free slot. *)
Definition with_row (b : RowBucketType) (row : RowType) (is_multiline : bool)
  : RowBucketType :=
  mkBucket (nrows b + 1)
           (<[Z.to_nat (nrows b) := Some row]> (rows b))
           (<[Z.to_nat (nrows b) := Some is_multiline]> (multilines b))
           (allocated b) (next_bucket b).

Definition with_next (b : RowBucketType) (q : ptr) : RowBucketType :=
  mkBucket (nrows b) (rows b) (multilines b) (allocated b) (Some q).

(** The chain as a relation, for proofs: [linked h p bs] when following
    [next_bucket] from [p] meets exactly the buckets [bs] and then stops. *)
Inductive linked (h : heap) : ptr -> list (ptr * RowBucketType) -> Prop :=
| linked_last (p : ptr) (b : RowBucketType) :
    h !! p = Some b -> next_bucket b = None -> linked h p [(p, b)]
| linked_next (p : ptr) (b : RowBucketType) (q : ptr) (bs : list (ptr * RowBucketType)) :
    h !! p = Some b -> next_bucket b = Some q -> linked h q bs ->
    linked h p ((p, b) :: bs).

Definition is_full (pb : ptr * RowBucketType) : bool := nrows (snd pb) =? 1000.

(** The chain invariant as a proposition: the chain from [head] is [front]
    followed by the bucket [bt] at [tail]; the buckets of [front] are full. *)
Definition chained (h : heap) (head tail : ptr)
    (front : list (ptr * RowBucketType)) (bt : RowBucketType) : Prop :=
  linked h head (front ++ [(tail, bt)])
  /\ (length front < length h)%nat
  /\ forallb is_full front = true
  /\ 0 <= nrows bt <= 1000.

(** The bucket [push_row] allocates, once it holds its first row. *)
Definition first_row_bucket (row : RowType) (is_multiline : bool) : RowBucketType :=
  with_row (mkBucket 0 (array_new 1000) (array_new 1000) true None) row is_multiline.

(** Sample data for the examples. *)
Definition no_row : RowType := mkRow 0 [] [].

Definition full_bucket : RowBucketType :=
  mkBucket 1000 (replicate 1000 (Some no_row)) (replicate 1000 (Some false)) false None.

(** The bucket after the rows [rs] have been written to its next slots. *)
Definition with_rows (b : RowBucketType) (rs : list (RowType * bool)) : RowBucketType :=
  fold_left (fun b' rm => with_row b' (fst rm) (snd rm)) rs b.

(** Slot [i] of a bucket: the row and its flag. *)
Definition slot (b : RowBucketType) (i : Z) : option (RowType * bool) :=
  match array_get (rows b) i, array_get (multilines b) i with
  | Some r, Some m => Some (r, m)
  | _, _ => None
  end.

(** The two arrays of a bucket have their 1000 slots. *)
Definition sized (b : RowBucketType) : Prop :=
  length (rows b) = 1000%nat /\ length (multilines b) = 1000%nat.

(** ** Lines of a text *)

(** A string literal as the characters of a C text. *)
Definition txt (s : string) : list ascii := list_ascii_of_string s.

(** The text has a line break. *)
Definition has_line_break (s : list ascii) : bool :=
  existsb (fun c => Ascii.eqb c NL) (c_str s).

(** The lines of a text: the runs of characters between line breaks. *)
Fixpoint lines (s : list ascii) : list (list ascii) :=
  match s with
  | [] => [[]]
  | c :: s' =>
      if Ascii.eqb c NL then [] :: lines s'
      else match lines s' with
           | l :: ls => (c :: l) :: ls
           | [] => [[c]]
           end
  end.

(** The length of the longest line. *)
Definition widest_line (s : list ascii) : Z :=
  fold_right Z.max 0 (map (fun l => Z.of_nat (length l)) (lines s)).

(** What the caller reads through [*err] after the call. *)
Definition caller_message (s : state) : option (list ascii) :=
  match st_err s with
  | ErrNULL => None
  | ErrBuffer => Some (st_errmsg s)
  | ErrOther m => Some m
  end.

(** Lines 156-157. *)
Definition reset_bucket (b : RowBucketType) : RowBucketType :=
  mkBucket 0 (rows b) (multilines b) (allocated b) None.

(** Sample data for the examples: a caller's state with one bucket, the
    type identifiers of PostgreSQL, a width function for the UTF-8 mode, a
    server that refuses the connection, one that rejects the query, and one
    that answers with 1025 columns. *)
Definition sample_pdesc : PrintDataDesc :=
  mkDesc 0 false (replicate 1024 " "%char) (replicate 1024 0) (replicate 1024 false).

Definition sample_state : state :=
  mkState [empty_bucket] sample_pdesc ErrNULL [] [] 0.

Definition sample_oids : pg_type_d := mkOids 21 23 20 700 701 1700 26 28 29 790.

Definition sample_utf : utf_dsplen_fn := fun s _ _ => (strlen s, false, 0, 0).

Definition sample_source (connected tuples : bool) (nfields : Z) : Source :=
  mkSource connected (txt "no route to host") tuples (txt "syntax error")
           nfields (fun _ => 23) (fun _ => txt "c") 0 (fun _ _ => []) (fun _ => true).

(** ** The packed buffer of a row *)

(** The bytes of the first [k] texts, each followed by its terminator. *)
Definition packed (text : Z -> list ascii) (k : Z) : list ascii :=
  concat (map (fun i => c_str (text i) ++ [NUL]) (range k)).

(** Where text [k] starts in the buffer; [offset text n] is also the number
    of bytes the [n] texts need. *)
Definition offset (text : Z -> list ascii) (k : Z) : Z :=
  Z.of_nat (length (packed text k)).

(** The row that holds the [n] texts: field [i] points to [offset text i]
    in a buffer that is exactly the packed texts. *)
Definition packed_row (text : Z -> list ascii) (n : Z) : RowType :=
  mkRow n (map (fun i => Some (offset text i)) (range n)) (map Some (packed text n)).

(** ** The loops that fill a row *)

(** The body shared by the two loops (lines 206-215 and 243-252): copy the
    text, record the field pointer, measure the copy, and update the layout
    of column [i] by [upd]. *)
Definition store_field (utf : utf_dsplen_fn) (opts : Options) (text : list ascii)
    (upd : Z -> Z -> bool -> PrintDataDesc -> option PrintDataDesc)
    (i : Z) (f : fill) : option fill :=
  buf ← strcpy (f_buf f) (f_locbuf f) text;
  flds ← array_set (f_fields f) i (f_locbuf f);
  off ← array_get flds i;
  str ← string_at buf off;
  let '(w, mc) := field_info utf opts str (f_multiline_col f) in
  pd ← upd i w mc (f_pdesc f);
  Some (mkFill buf (f_locbuf f + strlen text + 1) flds pd (f_multiline_row f || mc) mc).

(** Lines 212-213. *)
Definition header_update (i w : Z) (mc : bool) (pd : PrintDataDesc)
  : option PrintDataDesc :=
  ws ← list_set (widths pd) i w;
  ms ← list_set (pd_multilines pd) i mc;
  Some (mkDesc (pd_nfields pd) (has_header pd) (types pd) ws ms).

(** Lines 249-251. *)
Definition data_update (j w : Z) (mc : bool) (pd : PrintDataDesc)
  : option PrintDataDesc :=
  old ← list_get (widths pd) j;
  ws ← list_set (widths pd) j (max_int old w);
  oldm ← list_get (pd_multilines pd) j;
  ms ← list_set (pd_multilines pd) j (oldm || mc);
  Some (mkDesc (pd_nfields pd) (has_header pd) (types pd) ws ms).

(** The locals after [k] of the [n] texts have been stored. *)
Definition filled (text : Z -> list ascii) (n k : Z) (f : fill) : Prop :=
  f_buf f = map Some (packed text k)
            ++ replicate (Z.to_nat (offset text n - offset text k)) None
  /\ f_locbuf f = offset text k
  /\ f_fields f = map (fun i => Some (offset text i)) (range k)
                  ++ replicate (Z.to_nat (n - k)) None.

(** The display width of a text: what [field_info] returns for it. *)
Definition field_width (utf : utf_dsplen_fn) (opts : Options) (t : list ascii) : Z :=
  fst (field_info utf opts (c_str t) false).

(** The layout while the header is stored, [k] columns done: widths of the
    columns done are the widths of their names, the others are untouched. *)
Definition header_layout (utf : utf_dsplen_fn) (opts : Options) (text : Z -> list ascii)
    (pd0 : PrintDataDesc) (k : Z) (pd : PrintDataDesc) : Prop :=
  pd_nfields pd = pd_nfields pd0 /\ has_header pd = has_header pd0
  /\ types pd = types pd0
  /\ length (widths pd) = length (widths pd0)
  /\ length (pd_multilines pd) = length (pd_multilines pd0)
  /\ (forall i, 0 <= i < k -> list_get (widths pd) i = Some (field_width utf opts (text i)))
  /\ (forall i, k <= i -> list_get (widths pd) i = list_get (widths pd0) i).

(** The layout while a data row is stored, [k] columns done: widths of the
    columns done are the larger of the old width and the width of the
    value, the others are untouched. *)
Definition data_layout (utf : utf_dsplen_fn) (opts : Options) (text : Z -> list ascii)
    (pd0 : PrintDataDesc) (k : Z) (pd : PrintDataDesc) : Prop :=
  pd_nfields pd = pd_nfields pd0 /\ has_header pd = has_header pd0
  /\ types pd = types pd0
  /\ length (widths pd) = length (widths pd0)
  /\ length (pd_multilines pd) = length (pd_multilines pd0)
  /\ (forall i, 0 <= i < k ->
        exists old, list_get (widths pd0) i = Some old
                    /\ list_get (widths pd) i
                       = Some (Z.max old (field_width utf opts (text i))))
  /\ (forall i, k <= i -> list_get (widths pd) i = list_get (widths pd0) i).

(** The layout while the types are set (lines 184-185), [k] columns done. *)
Definition types_layout (oid : pg_type_d) (src : Source)
    (pd0 : PrintDataDesc) (k : Z) (pd : PrintDataDesc) : Prop :=
  pd_nfields pd = pd_nfields pd0 /\ has_header pd = has_header pd0
  /\ widths pd = widths pd0 /\ pd_multilines pd = pd_multilines pd0
  /\ length (types pd) = length (types pd0)
  /\ (forall i, 0 <= i < k ->
        list_get (types pd) i = Some (column_type_class oid (PQftype src i)))
  /\ (forall i, k <= i -> list_get (types pd) i = list_get (types pd0) i).

(** The row holds the [n] texts: field [j] read through its pointer is text
    [j] (up to its terminator), the terminator of field [j] is the byte
    after its last character, and field [j + 1] starts right after that
    terminator, so that a reader of field [j] stops before the bytes of the
    next field. *)
Definition holds_texts (r : RowType) (text : Z -> list ascii) (n : Z) : Prop :=
  row_nfields r = n
  /\ forall j, 0 <= j < n ->
       row_field r j = Some (c_str (text j))
       /\ exists off,
            array_get (fields r) j = Some off
            /\ array_get (payload r) (off + strlen (text j)) = Some NUL
            /\ (j + 1 < n ->
                array_get (fields r) (j + 1) = Some (off + strlen (text j) + 1)).

(** Sample data: the result of a query with an integer column "id" and a
    text column "name" and the two rows ("1", "Al") and ("22", "Robert"). *)
Definition sample_table : Source :=
  mkSource true [] true [] 2
           (fun i => if i =? 0 then 23 else 25)
           (fun i => if i =? 0 then txt "id" else txt "name")
           2
           (fun i j => if i =? 0
                       then (if j =? 0 then txt "1" else txt "Al")
                       else (if j =? 0 then txt "22" else txt "Robert"))
           (fun _ => true).

(** ** A run of pg_exec_query that returns true *)

(** The widest text of column [i] among the column name and the first [k]
    data rows. *)
Definition column_width (utf : utf_dsplen_fn) (opts : Options) (src : Source)
    (i k : Z) : Z :=
  fold_left Z.max (map (fun r => field_width utf opts (PQgetvalue src r i)) (range k))
            (field_width utf opts (PQfname src i)).

(** The rows the call builds for the header and the first [k] data rows. *)
Definition built_rows (src : Source) (k : Z) : list RowType :=
  packed_row (PQfname src) (PQnfields src)
  :: map (fun r => packed_row (PQgetvalue src r) (PQnfields src)) (range k).

(** What the call needs to run to its end: a valid first bucket, a
    connection and a result, at most 1024 columns, layout arrays of 1024
    entries, rows whose bytes fit an [int], and an allocator that does not
    fail. *)
Definition runs_through (src : Source) (s : state) (rb : ptr) : Prop :=
  (exists b, st_heap s !! rb = Some b /\ sized b)
  /\ connection_ok src = true /\ tuples_ok src = true
  /\ 0 <= PQnfields src <= 1024
  /\ length (types (st_pdesc s)) = 1024%nat
  /\ length (widths (st_pdesc s)) = 1024%nat
  /\ length (pd_multilines (st_pdesc s)) = 1024%nat
  /\ offset (PQfname src) (PQnfields src) <= INT_MAX
  /\ (forall i, 0 <= i < PQntuples src ->
        offset (PQgetvalue src i) (PQnfields src) <= INT_MAX)
  /\ (forall k, malloc_ok src k = true).

(** The layout after the header and [k] data rows. *)
Definition layout_after (utf : utf_dsplen_fn) (oid : pg_type_d) (opts : Options)
    (src : Source) (pd0 : PrintDataDesc) (k : Z) (pd : PrintDataDesc) : Prop :=
  pd_nfields pd = PQnfields src /\ has_header pd = true
  /\ length (types pd) = 1024%nat /\ length (widths pd) = 1024%nat
  /\ length (pd_multilines pd) = 1024%nat
  /\ (forall i, 0 <= i < PQnfields src ->
        list_get (types pd) i = Some (column_type_class oid (PQftype src i))
        /\ list_get (widths pd) i = Some (column_width utf opts src i k))
  /\ (forall i, PQnfields src <= i ->
        list_get (types pd) i = list_get (types pd0) i
        /\ list_get (widths pd) i = list_get (widths pd0) i).

(** The store after the header and [k] data rows, [tail] being its last
    bucket. *)
Definition store_after (src : Source) (head : ptr) (k : Z) (h : heap) (tail : ptr)
  : Prop :=
  exists front bt recs,
    chained h head tail front bt /\ sized bt
    /\ stored_records h head = Some recs
    /\ map fst recs = built_rows src k.

(** Sample data: a server whose refusal message has 1000 characters, and a
    table as [sample_source] whose allocator fails at the second call. *)
Definition long_error_source : Source :=
  mkSource false (replicate 1000 "x"%char) false [] 0 (fun _ => 23) (fun _ => [])
           0 (fun _ _ => []) (fun _ => true).

Definition short_of_memory_source : Source :=
  mkSource true [] true [] 1 (fun _ => 23) (fun _ => txt "c")
           0 (fun _ _ => []) (fun k => Nat.eqb k 0).

(** One of the first [k] texts has a line break. *)
Definition breaks_before (text : Z -> list ascii) (k : Z) : bool :=
  existsb (fun j => has_line_break (text j)) (range k).

(** ** A run of pg_exec_query whatever the allocator answers *)



(** * Properties *)

(** ** Arithmetic and arrays *)

Lemma int_wrap_id (z : Z) : -2147483648 <= z <= INT_MAX -> int_wrap z = z.
Proof.
  unfold int_wrap, INT_MAX. intros Hz.
  rewrite Z.mod_small by lia. lia.
Qed.

Lemma max_int_max (a b : Z) : max_int a b = Z.max a b.
Proof.
  unfold max_int. destruct (Z.gtb_spec a b); lia.
Qed.

Lemma array_set_Some {A : Type} (a : array A) (i : Z) (x : A) :
  0 <= i < Z.of_nat (length a) ->
  array_set a i x = Some (<[Z.to_nat i := Some x]> a).
Proof.
  intros Hi. unfold array_set.
  destruct (Z.leb_spec 0 i); [|lia].
  destruct (Z.ltb_spec i (Z.of_nat (length a))); [reflexivity|lia].
Qed.

Lemma array_set_inv {A : Type} (a a' : array A) (i : Z) (x : A) :
  array_set a i x = Some a' ->
  0 <= i < Z.of_nat (length a) /\ a' = <[Z.to_nat i := Some x]> a.
Proof.
  unfold array_set.
  destruct (Z.leb_spec 0 i); simpl; [|discriminate].
  destruct (Z.ltb_spec i (Z.of_nat (length a))); [|discriminate].
  intros [= <-]. split; [lia|reflexivity].
Qed.

Lemma array_get_set_eq {A : Type} (a : array A) (i : Z) (x : A) :
  0 <= i < Z.of_nat (length a) ->
  array_get (<[Z.to_nat i := Some x]> a) i = Some x.
Proof.
  intros Hi. unfold array_get.
  destruct (Z.leb_spec 0 i); [|lia].
  rewrite list_lookup_insert_eq by lia. reflexivity.
Qed.

Lemma array_get_set_ne {A : Type} (a : array A) (i j : Z) (x : A) :
  0 <= i -> 0 <= j -> i <> j ->
  array_get (<[Z.to_nat i := Some x]> a) j = array_get a j.
Proof.
  intros Hi Hj Hne. unfold array_get.
  destruct (Z.leb_spec 0 j); [|lia].
  rewrite list_lookup_insert_ne by lia. reflexivity.
Qed.

Lemma length_array_new {A : Type} (n : Z) :
  length (@array_new A n) = Z.to_nat n.
Proof. unfold array_new. apply length_replicate. Qed.

(** ** push_row *)

Lemma write_slot_inv h rb row ml h' rb' :
  write_slot h rb row ml = PushRb h' rb' ->
  exists b, h !! rb = Some b
            /\ 0 <= nrows b < Z.of_nat (length (rows b))
            /\ 0 <= nrows b < Z.of_nat (length (multilines b))
            /\ rb' = rb
            /\ h' = <[rb := mkBucket (int_wrap (nrows b + 1))
                              (<[Z.to_nat (nrows b) := Some row]> (rows b))
                              (<[Z.to_nat (nrows b) := Some ml]> (multilines b))
                              (allocated b) (next_bucket b)]> h.
Proof.
  unfold write_slot. destruct (h !! rb) as [b|] eqn:Hb; [|discriminate].
  destruct (array_set (rows b) (nrows b) row) as [rs|] eqn:Hrs; [|discriminate].
  destruct (array_set (multilines b) (nrows b) ml) as [ms|] eqn:Hms; [|discriminate].
  apply array_set_inv in Hrs as [Hr ->]. apply array_set_inv in Hms as [Hm ->].
  intros [= <- <-]. exists b. auto.
Qed.

Lemma write_slot_ok h rb b row ml :
  h !! rb = Some b ->
  0 <= nrows b < 1000 ->
  length (rows b) = 1000%nat -> length (multilines b) = 1000%nat ->
  write_slot h rb row ml = PushRb (<[rb := with_row b row ml]> h) rb.
Proof.
  intros Hb Hn Hr Hm. unfold write_slot. rewrite Hb.
  rewrite !array_set_Some by lia.
  rewrite int_wrap_id by (unfold INT_MAX; lia). reflexivity.
Qed.

(** What a call that returns a bucket has done: either the row went to the
    next slot of [rb], which was not full, or [rb] was full, kept its rows,
    and was linked to a new bucket that holds the row in slot 0. *)
Lemma push_row_inv mok h rb row ml h' rb' :
  push_row mok h rb row ml = PushRb h' rb' ->
  exists b, h !! rb = Some b /\
    ((nrows b < 1000 /\ 0 <= nrows b /\ rb' = rb
      /\ h' = <[rb := with_row b row ml]> h)
     \/ (1000 <= nrows b /\ mok = true /\ rb' = length h
         /\ h' = <[rb := with_next b (length h)]> h
                 ++ [with_row (mkBucket 0 (array_new 1000) (array_new 1000) true None)
                              row ml])).
Proof.
  unfold push_row. destruct (h !! rb) as [b|] eqn:Hb; [|discriminate].
  intros H. exists b. split; [reflexivity|].
  destruct (Z.geb_spec (nrows b) 1000) as [Hfull|Hfree].
  - right. destruct mok; [|discriminate]. cbv zeta in H.
    apply write_slot_inv in H as (b' & Hb' & Hr & _ & -> & ->).
    assert (Hlen : length (<[rb := mkBucket (nrows b) (rows b) (multilines b)
                                     (allocated b) (Some (length h))]> h) = length h)
      by apply length_insert.
    rewrite lookup_app_r in Hb' by lia.
    rewrite Hlen, Nat.sub_diag in Hb'. injection Hb' as <-.
    repeat split; [lia|].
    rewrite insert_app_r_alt by lia. rewrite Hlen, Nat.sub_diag. reflexivity.
  - left. apply write_slot_inv in H as (b' & Hb' & Hr & _ & -> & ->).
    rewrite Hb in Hb'. injection Hb' as <-.
    repeat split; try lia.
    rewrite int_wrap_id by (unfold INT_MAX; lia). reflexivity.
Qed.

Lemma push_row_ok h rb b row ml :
  h !! rb = Some b ->
  0 <= nrows b <= 1000 ->
  length (rows b) = 1000%nat -> length (multilines b) = 1000%nat ->
  push_row true h rb row ml =
    if nrows b >=? 1000
    then PushRb (<[rb := with_next b (length h)]> h
                 ++ [with_row (mkBucket 0 (array_new 1000) (array_new 1000) true None)
                              row ml])
                (length h)
    else PushRb (<[rb := with_row b row ml]> h) rb.
Proof.
  intros Hb Hn Hr Hm. unfold push_row. rewrite Hb.
  destruct (Z.geb_spec (nrows b) 1000) as [Hfull|Hfree].
  - set (h1 := <[rb := _]> h).
    assert (Hlen : length h1 = length h) by apply length_insert.
    erewrite write_slot_ok.
    + rewrite insert_app_r_alt by lia. rewrite Hlen, Nat.sub_diag. reflexivity.
    + rewrite lookup_app_r by lia. rewrite Hlen, Nat.sub_diag. reflexivity.
    + simpl. lia.
    + reflexivity.
    + reflexivity.
  - apply write_slot_ok; auto. lia.
Qed.

(** ** Chains *)

Lemma walk_linked fuel h p bs :
  walk fuel h p = Some bs -> linked h p bs /\ (length bs <= fuel)%nat.
Proof.
  revert p bs. induction fuel as [|fuel IH]; intros p bs; simpl; [discriminate|].
  destruct (h !! p) as [b|] eqn:Hb; [|discriminate].
  destruct (next_bucket b) as [q|] eqn:Hq.
  - destruct (walk fuel h q) as [bs'|] eqn:Hw; [|discriminate].
    intros [= <-]. destruct (IH _ _ Hw) as [Hl Hlen].
    split; [eapply linked_next; eauto|simpl; lia].
  - intros [= <-]. split; [apply linked_last; auto|simpl; lia].
Qed.

Lemma linked_walk fuel h p bs :
  linked h p bs -> (length bs <= fuel)%nat -> walk fuel h p = Some bs.
Proof.
  intros Hl. revert fuel. induction Hl as [p b Hb Hn|p b q bs Hb Hn Hl IH];
    intros [|fuel] Hlen; simpl in *; try lia.
  - rewrite Hb, Hn. reflexivity.
  - rewrite Hb, Hn, IH by lia. reflexivity.
Qed.

(** The last bucket of a chain is in the heap and has no successor. *)
Lemma linked_end h p front t bt :
  linked h p (front ++ [(t, bt)]) -> h !! t = Some bt /\ next_bucket bt = None.
Proof.
  revert p. induction front as [|[p0 b0] front IH]; intros p Hl; simpl in Hl.
  - inversion Hl as [? ? Hb Hn|? ? ? ? ? ? Hl']; subst; [auto|inversion Hl'].
  - inversion Hl as [|? ? ? ? ? ? Hl']; subst.
    + destruct front; discriminate.
    + eapply IH; eauto.
Qed.

Lemma linked_nonempty h p bs : linked h p bs -> bs <> [].
Proof. destruct 1; discriminate. Qed.

(** A chain is a front of buckets and a last bucket. *)
Lemma linked_split h p bs :
  linked h p bs -> exists front t bt, bs = front ++ [(t, bt)].
Proof.
  intros Hl. apply linked_nonempty in Hl.
  destruct bs as [|x bs _] using rev_ind; [congruence|].
  destruct x; eauto.
Qed.

(** Replacing the last bucket by one that has no successor either. *)
Lemma linked_set_tail h p front t bt b' :
  linked h p (front ++ [(t, bt)]) ->
  next_bucket b' = None ->
  linked (<[t := b']> h) p (front ++ [(t, b')]).
Proof.
  intros Hl Hn'. revert p Hl.
  induction front as [|[p0 b0] front IH]; intros p Hl; simpl in *.
  - inversion Hl as [? ? Hb Hn|? ? ? ? ? ? Hl']; subst; [|inversion Hl'].
    apply linked_last; [|assumption].
    apply list_lookup_insert_eq. eapply lookup_lt_Some; eauto.
  - inversion Hl as [|? ? q ? Hb Hn Hl']; subst.
    { destruct front; discriminate. }
    destruct (linked_end _ _ _ _ _ Hl') as [Ht Hnt].
    assert (p0 <> t) by (intros ->; congruence).
    eapply linked_next; [|eassumption|apply IH; assumption].
    rewrite list_lookup_insert_ne by congruence. assumption.
Qed.

(** Linking the last bucket to a new one at the end of the heap. *)
Lemma linked_grow h p front t bt nb :
  linked h p (front ++ [(t, bt)]) ->
  next_bucket nb = None ->
  linked (<[t := with_next bt (length h)]> h ++ [nb]) p
         (front ++ [(t, with_next bt (length h)); (length h, nb)]).
Proof.
  intros Hl Hn'. revert p Hl.
  induction front as [|[p0 b0] front IH]; intros p Hl; simpl in *.
  - inversion Hl as [? ? Hb Hn|? ? ? ? ? ? Hl']; subst; [|inversion Hl'].
    assert (t < length h)%nat by (eapply lookup_lt_Some; eauto).
    eapply linked_next; [| reflexivity |].
    + rewrite lookup_app_l by (rewrite length_insert; lia).
      apply list_lookup_insert_eq. lia.
    + apply linked_last; [|assumption].
      rewrite lookup_app_r by (rewrite length_insert; lia).
      rewrite length_insert, Nat.sub_diag. reflexivity.
  - inversion Hl as [|? ? q ? Hb Hn Hl']; subst.
    { destruct front; discriminate. }
    destruct (linked_end _ _ _ _ _ Hl') as [Ht Hnt].
    assert (p0 <> t) by (intros ->; congruence).
    assert (p0 < length h)%nat by (eapply lookup_lt_Some; eauto).
    eapply linked_next; [|eassumption|apply IH; assumption].
    rewrite lookup_app_l by (rewrite length_insert; lia).
    rewrite list_lookup_insert_ne by congruence. assumption.
Qed.

Lemma only_last_partial_app front t b :
  only_last_partial (front ++ [(t, b)])
  = forallb is_full front && ((0 <=? nrows b) && (nrows b <=? 1000)).
Proof.
  induction front as [|[p0 b0] front IH]; simpl.
  - reflexivity.
  - rewrite <- andb_assoc, <- IH. destruct (front ++ [(t, b)]) eqn:E.
    + destruct front; discriminate.
    + reflexivity.
Qed.

Lemma chain_invariant_chained h head tail :
  chain_invariant h head tail = true <->
  exists front bt, chained h head tail front bt.
Proof.
  unfold chain_invariant, chain, chained. split.
  - destruct (walk (length h) h head) as [bs|] eqn:Hw; [|discriminate].
    apply walk_linked in Hw as [Hl Hlen].
    destruct (linked_split _ _ _ Hl) as (front & t & bt & ->).
    rewrite last_snoc, only_last_partial_app.
    rewrite length_app in Hlen. simpl in Hlen.
    intros H. apply andb_true_iff in H as [H1 H2].
    apply andb_true_iff in H1 as [Hf Hp].
    apply Nat.eqb_eq in H2 as ->.
    exists front, bt. repeat split; auto; try lia.
  - intros (front & bt & Hl & Hlen & Hf & Hn).
    erewrite linked_walk; [|eassumption|rewrite length_app; simpl; lia].
    rewrite last_snoc, only_last_partial_app, Hf, Nat.eqb_refl.
    destruct (Z.leb_spec 0 (nrows bt)); [|lia].
    destruct (Z.leb_spec (nrows bt) 1000); [reflexivity|lia].
Qed.

(** One successful append keeps the chain: the row goes to the last bucket,
    or to a new last bucket behind a full one. *)
Lemma push_row_chained mok h head tail front bt row ml h' rb' :
  chained h head tail front bt ->
  push_row mok h tail row ml = PushRb h' rb' ->
  (nrows bt < 1000 /\ rb' = tail /\ h' = <[tail := with_row bt row ml]> h
   /\ chained h' head tail front (with_row bt row ml))
  \/ (nrows bt = 1000 /\ mok = true /\ rb' = length h
      /\ h' = <[tail := with_next bt (length h)]> h ++ [first_row_bucket row ml]
      /\ chained h' head (length h) (front ++ [(tail, with_next bt (length h))])
                 (first_row_bucket row ml)).
Proof.
  intros (Hl & Hlen & Hfull & Hn) Hpush.
  destruct (linked_end _ _ _ _ _ Hl) as [Ht Hnt].
  apply push_row_inv in Hpush as (b & Hb & Hcase).
  rewrite Ht in Hb. injection Hb as <-.
  destruct Hcase as [(Hlt & _ & -> & ->)|(Hge & -> & -> & ->)]; [left|right].
  - split; [assumption|]. split; [reflexivity|]. split; [reflexivity|].
    unfold chained. split; [|split; [|split]].
    + apply linked_set_tail with (bt := bt); assumption.
    + rewrite length_insert. assumption.
    + assumption.
    + simpl. lia.
  - split; [lia|]. split; [reflexivity|]. split; [reflexivity|].
    split; [reflexivity|].
    unfold chained. split; [|split; [|split]].
    + rewrite <- app_assoc. simpl. apply linked_grow; [assumption|reflexivity].
    + rewrite !length_app, length_insert. simpl. lia.
    + rewrite forallb_app, Hfull. simpl. unfold is_full. simpl.
      destruct (Z.eqb_spec (nrows bt) 1000); [reflexivity|lia].
    + simpl. lia.
Qed.

(** C4. Every successful append keeps the chain invariant (only the last
    bucket of the chain may hold fewer than 1000 rows); no bucket that has
    reached 1000 rows has its row count, its rows or its flags changed; and
    when the last bucket is full the row goes to slot 0 of a bucket that was
    not in the heap before, linked behind it as the new last bucket. *)
Theorem push_row_keeps_chain_invariant :
  forall (mok : bool) (h : heap) (head tail : ptr) (row : RowType) (ml : bool)
         (h' : heap) (rb' : ptr),
    chain_invariant h head tail = true ->
    push_row mok h tail row ml = PushRb h' rb' ->
    chain_invariant h' head rb' = true
    /\ (forall q b, h !! q = Some b -> 1000 <= nrows b ->
          exists b', h' !! q = Some b' /\ nrows b' = nrows b
                     /\ rows b' = rows b /\ multilines b' = multilines b)
    /\ (forall bt, h !! tail = Some bt -> 1000 <= nrows bt ->
          h !! rb' = None
          /\ h' !! tail = Some (with_next bt rb')
          /\ h' !! rb' = Some (first_row_bucket row ml)
          /\ nrows (first_row_bucket row ml) = 1
          /\ next_bucket (first_row_bucket row ml) = None
          /\ array_get (rows (first_row_bucket row ml)) 0 = Some row
          /\ array_get (multilines (first_row_bucket row ml)) 0 = Some ml).
Proof.
  intros mok h head tail row ml h' rb' Hinv Hpush.
  apply chain_invariant_chained in Hinv as (front & bt & Hch).
  pose proof (push_row_chained _ _ _ _ _ _ _ _ _ _ Hch Hpush) as Hcase.
  destruct Hch as (Hl & Hlen & Hfull & Hn).
  destruct (linked_end _ _ _ _ _ Hl) as [Ht Hnt].
  assert (Htl : (tail < length h)%nat) by (eapply lookup_lt_Some; eauto).
  split; [|split].
  - apply chain_invariant_chained.
    destruct Hcase as [(_ & -> & _ & Hch')|(_ & _ & -> & _ & Hch')]; eauto.
  - intros q b Hq Hb.
    assert (Hql : (q < length h)%nat) by (eapply lookup_lt_Some; eauto).
    destruct Hcase as [(Hlt & _ & -> & _)|(_ & _ & _ & -> & _)].
    + destruct (decide (q = tail)) as [Heq|Hne]; [subst q|].
      * rewrite Ht in Hq. injection Hq as <-. lia.
      * exists b. rewrite list_lookup_insert_ne by congruence. auto.
    + rewrite lookup_app_l by (rewrite length_insert; lia).
      destruct (decide (q = tail)) as [Heq|Hne]; [subst q|].
      * rewrite Ht in Hq. injection Hq as <-.
        exists (with_next bt (length h)).
        rewrite list_lookup_insert_eq by lia. auto.
      * exists b. rewrite list_lookup_insert_ne by congruence. auto.
  - intros bt' Hbt' Hge. rewrite Ht in Hbt'. injection Hbt' as <-.
    destruct Hcase as [(Hlt & _)|(_ & _ & -> & -> & _)]; [lia|].
    split; [apply lookup_ge_None; lia|].
    split; [rewrite lookup_app_l by (rewrite length_insert; lia);
            apply list_lookup_insert_eq; lia|].
    split; [rewrite lookup_app_r by (rewrite length_insert; lia);
            rewrite length_insert, Nat.sub_diag; reflexivity|].
    repeat split; reflexivity.
Qed.

Lemma push_row_keeps_chain_invariant_witness :
  chain_invariant [full_bucket] 0 0 = true
  /\ push_row true [full_bucket] 0 no_row true
     = PushRb [with_next full_bucket 1; first_row_bucket no_row true] 1%nat
  /\ chain_invariant [with_next full_bucket 1; first_row_bucket no_row true] 0 1 = true.
Proof.
  split; [reflexivity|]. split; [reflexivity|].
  exact (proj1 (push_row_keeps_chain_invariant true [full_bucket] 0%nat 0%nat
                  no_row true _ 1%nat eq_refl eq_refl)).
Defined.

(** C10. When the last bucket is full and the allocation fails, [push_row]
    returns NULL and the heap is as before: the row is not written, no
    bucket is linked, and no row count changes. *)
Theorem push_row_allocation_failure :
  forall (h : heap) (rb : ptr) (b : RowBucketType) (row : RowType) (ml : bool),
    h !! rb = Some b ->
    1000 <= nrows b ->
    push_row false h rb row ml = PushNull h.
Proof.
  intros h rb b row ml Hb Hfull. unfold push_row. rewrite Hb.
  destruct (Z.geb_spec (nrows b) 1000); [reflexivity|lia].
Qed.

Lemma push_row_allocation_failure_witness :
  push_row false [full_bucket] 0 no_row true = PushNull [full_bucket].
Proof.
  apply (push_row_allocation_failure [full_bucket] 0%nat full_bucket no_row true).
  - reflexivity.
  - simpl. lia.
Defined.

(** ** Appending many rows *)

Lemma with_rows_shape b rs :
  nrows (with_rows b rs) = nrows b + Z.of_nat (length rs)
  /\ next_bucket (with_rows b rs) = next_bucket b
  /\ length (rows (with_rows b rs)) = length (rows b)
  /\ length (multilines (with_rows b rs)) = length (multilines b).
Proof.
  unfold with_rows. revert b. induction rs as [|[r m] rs IH]; intros b; simpl.
  - repeat split; lia.
  - destruct (IH (with_row b r m)) as (-> & -> & -> & ->). simpl.
    rewrite !length_insert. repeat split; lia.
Qed.

Lemma push_rows_app h rb rs1 rs2 :
  push_rows h rb (rs1 ++ rs2)
  = match push_rows h rb rs1 with
    | PushRb h' rb' => push_rows h' rb' rs2
    | other => other
    end.
Proof.
  revert h rb. induction rs1 as [|[r m] rs1 IH]; intros h rb; simpl.
  - reflexivity.
  - destruct (push_row true h rb r m); auto.
Qed.

(** Rows that fit the last bucket all go to it, and the heap has no new
    bucket. *)
Lemma push_rows_fit h rb b rs :
  h !! rb = Some b ->
  0 <= nrows b ->
  nrows b + Z.of_nat (length rs) <= 1000 ->
  length (rows b) = 1000%nat -> length (multilines b) = 1000%nat ->
  push_rows h rb rs = PushRb (<[rb := with_rows b rs]> h) rb.
Proof.
  revert h b. induction rs as [|[r m] rs IH]; intros h b Hb Hn Hfit Hr Hm.
  - simpl. rewrite list_insert_id by assumption. reflexivity.
  - simpl in *. rewrite (push_row_ok h rb b) by (auto; lia).
    destruct (Z.geb_spec (nrows b) 1000); [lia|].
    assert (rb < length h)%nat by (eapply lookup_lt_Some; eauto).
    rewrite (IH _ (with_row b r m)).
    + rewrite list_insert_insert_eq. reflexivity.
    + apply list_lookup_insert_eq. assumption.
    + simpl. lia.
    + simpl. lia.
    + simpl. rewrite length_insert. assumption.
    + simpl. rewrite length_insert. assumption.
Qed.

(** C3. From one empty bucket: 1000 rows fill that bucket and leave it
    without a successor; 1001 rows give a second bucket that holds one row;
    2000 rows give exactly two full buckets. *)
Theorem bucket_chaining :
  forall rs : list (RowType * bool),
    (length rs = 1000%nat ->
     exists b, push_rows [empty_bucket] 0 rs = PushRb [b] 0%nat
               /\ nrows b = 1000 /\ next_bucket b = None)
    /\ (length rs = 1001%nat ->
        exists b1 b2, push_rows [empty_bucket] 0 rs = PushRb [b1; b2] 1%nat
                      /\ nrows b1 = 1000 /\ next_bucket b1 = Some 1%nat
                      /\ nrows b2 = 1 /\ next_bucket b2 = None)
    /\ (length rs = 2000%nat ->
        exists b1 b2, push_rows [empty_bucket] 0 rs = PushRb [b1; b2] 1%nat
                      /\ nrows b1 = 1000 /\ next_bucket b1 = Some 1%nat
                      /\ nrows b2 = 1000 /\ next_bucket b2 = None).
Proof.
  intros rs.
  assert (Hfill : forall rs1, length rs1 = 1000%nat ->
            push_rows [empty_bucket] 0 rs1 = PushRb [with_rows empty_bucket rs1] 0%nat
            /\ nrows (with_rows empty_bucket rs1) = 1000
            /\ next_bucket (with_rows empty_bucket rs1) = None
            /\ length (rows (with_rows empty_bucket rs1)) = 1000%nat
            /\ length (multilines (with_rows empty_bucket rs1)) = 1000%nat).
  { intros rs1 Hlen.
    destruct (with_rows_shape empty_bucket rs1) as (Hn & Hx & Hr & Hm).
    rewrite (push_rows_fit _ _ empty_bucket) by (simpl; try reflexivity; lia).
    rewrite Hn, Hx, Hr, Hm, Hlen. repeat split; reflexivity. }
  assert (Hnext : forall rs1 r m rs2, length rs1 = 1000%nat -> (length rs2 <= 999)%nat ->
            push_rows [empty_bucket] 0 (rs1 ++ (r, m) :: rs2)
            = PushRb [with_next (with_rows empty_bucket rs1) 1;
                      with_rows (first_row_bucket r m) rs2] 1%nat).
  { intros rs1 r m rs2 Hlen1 Hlen2.
    destruct (Hfill rs1 Hlen1) as (Hp & Hn & Hx & Hr & Hm).
    rewrite push_rows_app, Hp. simpl.
    rewrite (push_row_ok _ _ (with_rows empty_bucket rs1)) by (auto; lia).
    rewrite Hn. simpl.
    rewrite (push_rows_fit _ _ (first_row_bucket r m)); try reflexivity.
    - simpl. lia.
    - simpl. lia. }
  split; [|split]; intros Hlen.
  - destruct (Hfill rs Hlen) as (Hp & Hn & Hx & _). eauto.
  - rewrite <- (take_drop 1000 rs).
    destruct (drop 1000 rs) as [|[r m] rs2] eqn:Hd.
    { apply (f_equal length) in Hd. rewrite length_drop in Hd. simpl in Hd. lia. }
    assert (Hl2 : length rs2 = 0%nat).
    { apply (f_equal length) in Hd. rewrite length_drop in Hd. simpl in Hd. lia. }
    assert (Hl1 : length (take 1000 rs) = 1000%nat) by (rewrite length_take; lia).
    destruct (Hfill _ Hl1) as (_ & Hn & _).
    destruct (with_rows_shape (first_row_bucket r m) rs2) as (Hn2 & Hx2 & _).
    rewrite Hnext by lia.
    eexists _, _. split; [reflexivity|]. simpl. rewrite Hn2, Hx2, Hl2.
    repeat split; assumption.
  - rewrite <- (take_drop 1000 rs).
    destruct (drop 1000 rs) as [|[r m] rs2] eqn:Hd.
    { apply (f_equal length) in Hd. rewrite length_drop in Hd. simpl in Hd. lia. }
    assert (Hl2 : length rs2 = 999%nat).
    { apply (f_equal length) in Hd. rewrite length_drop in Hd. simpl in Hd. lia. }
    assert (Hl1 : length (take 1000 rs) = 1000%nat) by (rewrite length_take; lia).
    destruct (Hfill _ Hl1) as (_ & Hn & _).
    destruct (with_rows_shape (first_row_bucket r m) rs2) as (Hn2 & Hx2 & _).
    rewrite Hnext by lia.
    eexists _, _. split; [reflexivity|]. simpl. rewrite Hn2, Hx2, Hl2.
    repeat split; assumption.
Qed.

Lemma bucket_chaining_witness :
  (exists b, push_rows [empty_bucket] 0 (replicate 1000 (no_row, false)) = PushRb [b] 0%nat
             /\ nrows b = 1000 /\ next_bucket b = None)
  /\ (exists b1 b2,
        push_rows [empty_bucket] 0 (replicate 1001 (no_row, false)) = PushRb [b1; b2] 1%nat
        /\ nrows b1 = 1000 /\ next_bucket b1 = Some 1%nat
        /\ nrows b2 = 1 /\ next_bucket b2 = None)
  /\ (exists b1 b2,
        push_rows [empty_bucket] 0 (replicate 2000 (no_row, false)) = PushRb [b1; b2] 1%nat
        /\ nrows b1 = 1000 /\ next_bucket b1 = Some 1%nat
        /\ nrows b2 = 1000 /\ next_bucket b2 = None).
Proof.
  split; [|split].
  - apply (proj1 (bucket_chaining (replicate 1000 (no_row, false)))). reflexivity.
  - apply (proj1 (proj2 (bucket_chaining (replicate 1001 (no_row, false))))). reflexivity.
  - apply (proj2 (proj2 (bucket_chaining (replicate 2000 (no_row, false))))). reflexivity.
Defined.

(** ** The records of the store *)

Lemma range_succ (n : Z) : 0 <= n -> range (n + 1) = range n ++ [n].
Proof.
  intros Hn. unfold range.
  replace (Z.to_nat (n + 1)) with (S (Z.to_nat n)) by lia.
  rewrite seq_S, map_app. simpl. rewrite Z2Nat.id by lia. reflexivity.
Qed.

Lemma range_bounds (n i : Z) : i ∈ range n -> 0 <= i < n.
Proof.
  unfold range. intros Hi. apply list_elem_of_fmap in Hi as (k & -> & Hk).
  apply list_elem_of_In, in_seq in Hk. lia.
Qed.

Lemma mapM_app_Some {A B : Type} (f : A -> option B) l1 l2 k1 k2 :
  mapM f l1 = Some k1 -> mapM f l2 = Some k2 -> mapM f (l1 ++ l2) = Some (k1 ++ k2).
Proof.
  rewrite !mapM_Some. apply Forall2_app.
Qed.

Lemma bucket_records_slot (b : RowBucketType) :
  bucket_records b = mapM (slot b) (range (nrows b)).
Proof. reflexivity. Qed.

Lemma bucket_records_with_row b row ml rs :
  bucket_records b = Some rs ->
  0 <= nrows b < Z.of_nat (length (rows b)) ->
  0 <= nrows b < Z.of_nat (length (multilines b)) ->
  bucket_records (with_row b row ml) = Some (rs ++ [(row, ml)]).
Proof.
  intros Hrs Hr Hm. rewrite bucket_records_slot in *.
  cbn [with_row nrows]. rewrite range_succ by lia.
  apply mapM_app_Some.
  - rewrite <- Hrs. apply Forall_mapM_ext, Forall_forall.
    intros i Hi%range_bounds. unfold slot. cbn [with_row rows multilines].
    rewrite !array_get_set_ne by lia. reflexivity.
  - simpl. unfold slot. cbn [with_row rows multilines].
    rewrite !array_get_set_eq by lia. reflexivity.
Qed.

Lemma bucket_records_first_row row ml :
  bucket_records (first_row_bucket row ml) = Some [(row, ml)].
Proof. reflexivity. Qed.

Lemma chained_chain h head tail front bt :
  chained h head tail front bt -> chain h head = Some (front ++ [(tail, bt)]).
Proof.
  intros (Hl & Hlen & _). apply linked_walk; [assumption|].
  rewrite length_app. simpl. lia.
Qed.

Lemma push_row_room mok h rb b row ml h' rb' :
  push_row mok h rb row ml = PushRb h' rb' ->
  h !! rb = Some b -> nrows b < 1000 ->
  0 <= nrows b < Z.of_nat (length (rows b))
  /\ 0 <= nrows b < Z.of_nat (length (multilines b)).
Proof.
  unfold push_row. intros H Hb Hlt. rewrite Hb in H.
  destruct (Z.geb_spec (nrows b) 1000); [lia|].
  apply write_slot_inv in H as (b' & Hb' & Hr & Hm & _).
  rewrite Hb in Hb'. injection Hb' as <-. auto.
Qed.

Lemma push_row_stored mok h head tail front bt row ml h' rb' rs :
  chained h head tail front bt ->
  stored_records h head = Some rs ->
  push_row mok h tail row ml = PushRb h' rb' ->
  stored_records h' head = Some (rs ++ [(row, ml)]).
Proof.
  intros Hch Hrs Hpush.
  pose proof (push_row_chained _ _ _ _ _ _ _ _ _ _ Hch Hpush) as Hcase.
  unfold stored_records in *. rewrite (chained_chain _ _ _ _ _ Hch) in Hrs.
  destruct (mapM _ (front ++ _)) as [rss|] eqn:Hm; [|discriminate].
  injection Hrs as <-.
  apply mapM_Some, Forall2_app_inv_l in Hm as (rf & rl & Hf & Hl & ->).
  apply Forall2_cons_inv_l in Hl as (rt & rl' & Ht & Hnil & ->).
  apply Forall2_nil_inv_l in Hnil as ->. simpl in Ht.
  destruct Hch as (Hlk & _). destruct (linked_end _ _ _ _ _ Hlk) as [Hbt _].
  destruct Hcase as [(Hlt & -> & -> & Hch')|(_ & _ & -> & -> & Hch')];
    rewrite (chained_chain _ _ _ _ _ Hch').
  - destruct (push_row_room _ _ _ _ _ _ _ _ Hpush Hbt Hlt) as [Hr Hm].
    rewrite (mapM_app_Some _ front [_] rf [rt ++ [(row, ml)]]).
    + simpl. rewrite !concat_app. simpl. rewrite !app_nil_r, app_assoc. reflexivity.
    + apply mapM_Some. exact Hf.
    + simpl. rewrite (bucket_records_with_row _ _ _ _ Ht Hr Hm). reflexivity.
  - rewrite (mapM_app_Some _ (front ++ [_]) [_] (rf ++ [rt]) [[(row, ml)]]).
    + simpl. rewrite !concat_app. simpl. rewrite !app_nil_r. reflexivity.
    + apply mapM_Some, Forall2_app; [exact Hf|].
      constructor; [exact Ht|constructor].
    + reflexivity.
Qed.

(** X1. A successful [push_row] on the last bucket of a chain adds the row
    and its flag at the end of the forward traversal of the store and
    leaves the records already stored and their order as they were,
    whether the row went to a free slot or to a new bucket. *)
Theorem push_row_appends_record :
  forall (mok : bool) (h : heap) (head tail : ptr) (row : RowType) (ml : bool)
         (h' : heap) (rb' : ptr) (rs : list (RowType * bool)),
    chain_invariant h head tail = true ->
    stored_records h head = Some rs ->
    push_row mok h tail row ml = PushRb h' rb' ->
    stored_records h' head = Some (rs ++ [(row, ml)]).
Proof.
  intros mok h head tail row ml h' rb' rs Hinv Hrs Hpush.
  apply chain_invariant_chained in Hinv as (front & bt & Hch).
  eapply push_row_stored; eauto.
Qed.

Lemma push_row_appends_record_witness :
  stored_records [with_next full_bucket 1; first_row_bucket no_row true] 0
  = Some (replicate 1000 (no_row, false) ++ [(no_row, true)]).
Proof.
  apply (push_row_appends_record true [full_bucket] 0%nat 0%nat no_row true _ 1%nat).
  - reflexivity.
  - reflexivity.
  - reflexivity.
Defined.

Lemma sized_with_row b row ml : sized b -> sized (with_row b row ml).
Proof.
  intros [Hr Hm]. split; simpl; rewrite length_insert; assumption.
Qed.

Lemma sized_first_row row ml : sized (first_row_bucket row ml).
Proof. split; reflexivity. Qed.

(** With an allocator that never fails, any sequence of rows is appended. *)
Lemma push_rows_chained rs :
  forall h head tail front bt rs0,
    chained h head tail front bt -> sized bt ->
    stored_records h head = Some rs0 ->
    exists h' rb' front' bt',
      push_rows h tail rs = PushRb h' rb'
      /\ chained h' head rb' front' bt' /\ sized bt'
      /\ stored_records h' head = Some (rs0 ++ rs)
      /\ (length h <= length h' <= length h + length rs)%nat.
Proof.
  induction rs as [|[r m] rs IH]; intros h head tail front bt rs0 Hch Hsz Hrs.
  - exists h, tail, front, bt. simpl. rewrite app_nil_r, Nat.add_0_r.
    split; [reflexivity|]. split; [assumption|]. split; [assumption|].
    split; [assumption|lia].
  - pose proof Hch as (Hl & _ & _ & Hn).
    destruct (linked_end _ _ _ _ _ Hl) as [Hbt _]. destruct Hsz as [Hr Hm].
    pose proof (push_row_ok h tail bt r m Hbt Hn Hr Hm) as Hok.
    assert (Hpush : exists h1 rb1, push_row true h tail r m = PushRb h1 rb1).
    { rewrite Hok. destruct (nrows bt >=? 1000); eauto. }
    destruct Hpush as (h1 & rb1 & Hpush).
    pose proof (push_row_stored _ _ _ _ _ _ _ _ _ _ _ Hch Hrs Hpush) as Hrs1.
    assert (Hnext : exists front1 bt1, chained h1 head rb1 front1 bt1 /\ sized bt1
                      /\ (length h <= length h1 <= length h + 1)%nat).
    { destruct (push_row_chained _ _ _ _ _ _ _ _ _ _ Hch Hpush)
        as [(_ & -> & -> & Hch1)|(_ & _ & -> & -> & Hch1)].
      - eexists _, _. split; [exact Hch1|]. split.
        + apply sized_with_row. split; assumption.
        + rewrite length_insert. lia.
      - eexists _, _. split; [exact Hch1|]. split.
        + apply sized_first_row.
        + rewrite length_app, length_insert. simpl. lia. }
    destruct Hnext as (front1 & bt1 & Hch1 & Hsz1 & Hlen1).
    destruct (IH _ _ _ _ _ _ Hch1 Hsz1 Hrs1) as (h' & rb' & front' & bt' & Hp & Hch' & Hsz' & Hrs' & Hlen').
    exists h', rb', front', bt'. simpl. rewrite Hpush.
    rewrite <- app_assoc in Hrs'. simpl in Hrs'.
    split; [exact Hp|]. split; [assumption|]. split; [assumption|].
    split; [assumption|]. simpl. lia.
Qed.

(** X2. With an allocator that never fails, appending any sequence of rows
    to a well-formed store succeeds: the chain invariant holds afterwards,
    the traversal of the store yields the old records followed by the new
    ones in the order given, and at most one bucket per row was added to
    the heap. *)
Theorem push_rows_appends_all :
  forall (h : heap) (head tail : ptr) (bt : RowBucketType)
         (rs0 rs : list (RowType * bool)),
    chain_invariant h head tail = true ->
    h !! tail = Some bt ->
    length (rows bt) = 1000%nat -> length (multilines bt) = 1000%nat ->
    stored_records h head = Some rs0 ->
    exists h' rb',
      push_rows h tail rs = PushRb h' rb'
      /\ chain_invariant h' head rb' = true
      /\ stored_records h' head = Some (rs0 ++ rs)
      /\ (length h <= length h' <= length h + length rs)%nat.
Proof.
  intros h head tail bt rs0 rs Hinv Hbt Hr Hm Hrs.
  apply chain_invariant_chained in Hinv as (front & bt0 & Hch).
  pose proof Hch as (Hl & _). destruct (linked_end _ _ _ _ _ Hl) as [Hbt0 _].
  rewrite Hbt in Hbt0. injection Hbt0 as <-.
  destruct (push_rows_chained rs _ _ _ _ _ _ Hch (conj Hr Hm) Hrs)
    as (h' & rb' & front' & bt' & Hp & Hch' & _ & Hrs' & Hlen).
  exists h', rb'. repeat split; auto; try lia.
  apply chain_invariant_chained. eauto.
Qed.

Lemma push_rows_appends_all_witness :
  exists h' rb',
    push_rows [empty_bucket] 0 [(no_row, true); (no_row, false)] = PushRb h' rb'
    /\ chain_invariant h' 0 rb' = true
    /\ stored_records h' 0 = Some ([] ++ [(no_row, true); (no_row, false)])
    /\ (length [empty_bucket] <= length h'
        <= length [empty_bucket] + length [(no_row, true); (no_row, false)])%nat.
Proof.
  apply (push_rows_appends_all [empty_bucket] 0%nat 0%nat empty_bucket []
           [(no_row, true); (no_row, false)]); reflexivity.
Defined.

Lemma slot_with_row_old b row ml i :
  0 <= i < nrows b -> slot (with_row b row ml) i = slot b i.
Proof.
  intros Hi. unfold slot. cbn [with_row rows multilines].
  rewrite !array_get_set_ne by lia. reflexivity.
Qed.

(** X3. A successful [push_row] never moves or overwrites a stored row: in
    every bucket of the heap, every slot below the bucket's row count holds
    after the call the row and the flag it held before; buckets other than
    [rb] are untouched, and the heap grows by at most one bucket. *)
Theorem push_row_keeps_stored_rows :
  forall (mok : bool) (h : heap) (rb : ptr) (row : RowType) (ml : bool)
         (h' : heap) (rb' : ptr),
    push_row mok h rb row ml = PushRb h' rb' ->
    (forall q b i, h !! q = Some b -> 0 <= i < nrows b ->
       exists b', h' !! q = Some b' /\ slot b' i = slot b i)
    /\ (forall q, q <> rb -> (q < length h)%nat -> h' !! q = h !! q)
    /\ (length h <= length h' <= length h + 1)%nat.
Proof.
  intros mok h rb row ml h' rb' Hpush.
  apply push_row_inv in Hpush as (b0 & Hb0 & Hcase).
  assert (Hrb : (rb < length h)%nat) by (eapply lookup_lt_Some; eauto).
  destruct Hcase as [(_ & _ & -> & ->)|(_ & _ & -> & ->)].
  - split; [|split].
    + intros q b i Hq Hi. destruct (decide (q = rb)) as [Heq|Hne]; [subst q|].
      * rewrite Hb0 in Hq. injection Hq as <-.
        exists (with_row b0 row ml). split; [apply list_lookup_insert_eq; lia|].
        apply slot_with_row_old. assumption.
      * exists b. rewrite list_lookup_insert_ne by congruence. auto.
    + intros q Hne _. apply list_lookup_insert_ne. congruence.
    + rewrite length_insert. lia.
  - split; [|split].
    + intros q b i Hq Hi.
      assert (Hql : (q < length h)%nat) by (eapply lookup_lt_Some; eauto).
      rewrite lookup_app_l by (rewrite length_insert; lia).
      destruct (decide (q = rb)) as [Heq|Hne]; [subst q|].
      * rewrite Hb0 in Hq. injection Hq as <-.
        exists (with_next b0 (length h)). split; [apply list_lookup_insert_eq; lia|].
        reflexivity.
      * exists b. rewrite list_lookup_insert_ne by congruence. auto.
    + intros q Hne Hq. rewrite lookup_app_l by (rewrite length_insert; lia).
      apply list_lookup_insert_ne. congruence.
    + rewrite length_app, length_insert. simpl. lia.
Qed.

Lemma push_row_keeps_stored_rows_witness :
  (forall q b i, [full_bucket] !! q = Some b -> 0 <= i < nrows b ->
     exists b', [with_next full_bucket 1; first_row_bucket no_row true] !! q = Some b'
                /\ slot b' i = slot b i)
  /\ (forall q, q <> 0%nat -> (q < length [full_bucket])%nat ->
        [with_next full_bucket 1; first_row_bucket no_row true] !! q
        = [full_bucket] !! q)
  /\ (length [full_bucket]
      <= length [with_next full_bucket 1; first_row_bucket no_row true]
      <= length [full_bucket] + 1)%nat.
Proof.
  apply (push_row_keeps_stored_rows true [full_bucket] 0%nat no_row true _ 1%nat).
  reflexivity.
Defined.

(** X4. [push_row] returns NULL only when the bucket it was given is full
    and the allocation failed, and then the heap is the one it was given. *)
Theorem push_row_null_only_on_failed_allocation :
  forall (mok : bool) (h : heap) (rb : ptr) (row : RowType) (ml : bool) (h' : heap),
    push_row mok h rb row ml = PushNull h' ->
    mok = false /\ h' = h /\ exists b, h !! rb = Some b /\ 1000 <= nrows b.
Proof.
  intros mok h rb row ml h' H. unfold push_row in H.
  destruct (h !! rb) as [b|] eqn:Hb; [|discriminate].
  assert (Hws : forall h1 p, write_slot h1 p row ml <> PushNull h').
  { intros h1 p. unfold write_slot. destruct (h1 !! p) as [b1|]; [|discriminate].
    destruct (array_set (rows b1) (nrows b1) row); [|discriminate].
    destruct (array_set (multilines b1) (nrows b1) ml); discriminate. }
  destruct (Z.geb_spec (nrows b) 1000) as [Hfull|Hfree].
  - destruct mok.
    + exfalso. eapply Hws. exact H.
    + injection H as <-. eauto.
  - exfalso. eapply Hws. exact H.
Qed.

Lemma push_row_null_only_on_failed_allocation_witness :
  false = false /\ [full_bucket] = [full_bucket]
  /\ exists b, [full_bucket] !! 0%nat = Some b /\ 1000 <= nrows b.
Proof.
  apply (push_row_null_only_on_failed_allocation false [full_bucket] 0%nat
           no_row true [full_bucket]).
  reflexivity.
Defined.

(** ** field_info with force8bit *)

Lemma field_info_8bit_flag s : forall m cw w,
  snd (field_info_8bit s m cw w) = m || has_line_break s.
Proof.
  unfold has_line_break.
  induction s as [|c s IH]; intros m cw w; simpl.
  - rewrite orb_false_r. reflexivity.
  - destruct (Ascii.eqb c NUL) eqn:Hnul; simpl.
    + rewrite orb_false_r. reflexivity.
    + destruct (Ascii.eqb c NL) eqn:Hnl; simpl.
      * rewrite IH. rewrite orb_true_r. reflexivity.
      * apply IH.
Qed.

Lemma field_info_8bit_width_flag s : forall m m' cw w,
  fst (field_info_8bit s m cw w) = fst (field_info_8bit s m' cw w).
Proof.
  induction s as [|c s IH]; intros m m' cw w; simpl.
  - reflexivity.
  - destruct (Ascii.eqb c NUL); [reflexivity|].
    destruct (Ascii.eqb c NL); apply IH.
Qed.

Lemma lines_nonempty s : lines s <> [].
Proof.
  destruct s as [|c s]; simpl; [discriminate|].
  destruct (Ascii.eqb c NL); [discriminate|].
  destruct (lines s); discriminate.
Qed.

Lemma field_info_8bit_width s : forall m cw w l0 ls,
  lines (c_str s) = l0 :: ls ->
  0 <= cw -> cw + strlen s <= INT_MAX ->
  fst (field_info_8bit s m cw w)
  = Z.max w (Z.max (cw + Z.of_nat (length l0))
                   (fold_right Z.max 0 (map (fun l => Z.of_nat (length l)) ls))).
Proof.
  unfold strlen.
  induction s as [|c s IH]; intros m cw w l0 ls Hl Hcw Hfit; simpl in *.
  - injection Hl as <- <-. simpl. destruct (Z.gtb_spec cw w); lia.
  - destruct (Ascii.eqb c NUL) eqn:Hnul; simpl in *.
    + injection Hl as <- <-. simpl. destruct (Z.gtb_spec cw w); lia.
    + destruct (Ascii.eqb c NL) eqn:Hnl; simpl in *.
      * injection Hl as <- <-.
        destruct (lines (c_str s)) as [|l1 ls1] eqn:Hl1;
          [destruct (lines_nonempty _ Hl1)|].
        rewrite (IH _ 0 _ l1 ls1) by (auto; lia). simpl.
        destruct (Z.gtb_spec cw w); lia.
      * destruct (lines (c_str s)) as [|l1 ls1] eqn:Hl1;
          [destruct (lines_nonempty _ Hl1)|].
        injection Hl as <- <-.
        rewrite int_wrap_id by (unfold INT_MAX in *; lia).
        rewrite (IH _ (cw + 1) _ l1 ls1) by (auto; lia). simpl. lia.
Qed.

Lemma widest_line_nonneg s : 0 <= widest_line s.
Proof.
  unfold widest_line. induction (lines s) as [|l ls IH]; simpl; lia.
Qed.

(** X5. With [force8bit], [field_info] only ever sets [*multiline]: after
    the call the flag is its content before the call or-ed with "the text
    has a line break", so a flag that was true stays true; the returned
    width does not depend on the flag. *)
Theorem field_info_force8bit_flag :
  forall (utf : utf_dsplen_fn) (opts : Options) (s : list ascii) (m : bool),
    force8bit opts = true ->
    snd (field_info utf opts s m) = m || has_line_break s
    /\ fst (field_info utf opts s m) = fst (field_info utf opts s false).
Proof.
  intros utf opts s m H8. unfold field_info. rewrite H8. split.
  - apply field_info_8bit_flag.
  - apply field_info_8bit_width_flag.
Qed.

Lemma field_info_force8bit_flag_witness :
  snd (field_info (fun _ _ _ => (0, false, 0, 0)) (mkOptions true []) (txt "abc") true)
  = true || has_line_break (txt "abc")
  /\ fst (field_info (fun _ _ _ => (0, false, 0, 0)) (mkOptions true []) (txt "abc") true)
     = fst (field_info (fun _ _ _ => (0, false, 0, 0)) (mkOptions true []) (txt "abc") false).
Proof.
  apply (field_info_force8bit_flag (fun _ _ _ => (0, false, 0, 0))
           (mkOptions true []) (txt "abc") true).
  reflexivity.
Defined.

(** X6. With [force8bit], for a text of at most INT_MAX bytes [field_info]
    returns the number of bytes of the longest line of the text (the text
    being read up to its terminator and cut at the line breaks). *)
Theorem field_info_force8bit_width :
  forall (utf : utf_dsplen_fn) (opts : Options) (s : list ascii) (m : bool),
    force8bit opts = true ->
    strlen s <= INT_MAX ->
    fst (field_info utf opts s m) = widest_line (c_str s).
Proof.
  intros utf opts s m H8 Hfit. unfold field_info. rewrite H8.
  pose proof (widest_line_nonneg (c_str s)) as Hnn. unfold widest_line in *.
  destruct (lines (c_str s)) as [|l0 ls] eqn:Hl; [destruct (lines_nonempty _ Hl)|].
  rewrite (field_info_8bit_width s m 0 0 l0 ls Hl) by lia.
  simpl in *. lia.
Qed.

Lemma field_info_force8bit_width_witness :
  fst (field_info (fun _ _ _ => (0, false, 0, 0)) (mkOptions true [])
         (txt "a" ++ [NL] ++ txt "bb" ++ [NL] ++ txt "c") false)
  = widest_line (c_str (txt "a" ++ [NL] ++ txt "bb" ++ [NL] ++ txt "c")).
Proof.
  apply (field_info_force8bit_width (fun _ _ _ => (0, false, 0, 0)) (mkOptions true [])
           (txt "a" ++ [NL] ++ txt "bb" ++ [NL] ++ txt "c") false).
  - reflexivity.
  - vm_compute. discriminate.
Defined.

(** ** The exits of pg_exec_query *)

(** Running the straight-line steps of a computation in [M]. *)
Ltac run_steps :=
  repeat (progress (unfold bind, get_heap, get_pdesc, put_heap, put_pdesc, set_err,
                           emit, defined, ret, return_, undefined, malloc,
                           RELEASE_AND_LEAVE, RELEASE_AND_EXIT, EXIT_OUT_OF_MEMORY,
                           call_leave_ncurses;
                    cbn [st_heap st_pdesc st_err st_errmsg st_trace st_nmalloc
                         negb fst snd])).

Lemma stored_records_reset (h : heap) (rb : ptr) (b : RowBucketType) :
  h !! rb = Some b ->
  stored_records (<[rb := reset_bucket b]> h) rb = Some [].
Proof.
  intros Hb. assert (Hlt : (rb < length h)%nat) by (eapply lookup_lt_Some; eauto).
  unfold stored_records, chain. rewrite length_insert.
  destruct (length h) as [|n] eqn:Hn; [lia|]. simpl.
  rewrite list_lookup_insert_eq by lia. reflexivity.
Qed.

(** X7. When the connection is not established (and the message fits the
    1024 bytes of [errmsg]) the call returns false having called
    [PQclear(NULL)] and [PQfinish] and nothing else after the connect;
    [*err] points to "Connection to database failed: " followed by libpq's
    message; the store is the reset first bucket and holds no row; the
    layout and the allocator were not touched. *)
Theorem connection_failure_returns_false :
  forall (utf : utf_dsplen_fn) (oid : pg_type_d) (src : Source) (opts : Options)
         (rb : ptr) (garbage : bool) (s : state) (b : RowBucketType),
    st_heap s !! rb = Some b ->
    connection_ok src = false ->
    Z.of_nat (length (txt "Connection to database failed: "
                      ++ c_str (connect_error src))) < 1024 ->
    exists s',
      pg_exec_query utf oid src opts rb garbage s = inr (Returned false s')
      /\ st_trace s' = st_trace s ++ [PQconnectdbParams; PQclear false; PQfinish]
      /\ caller_message s'
         = Some (txt "Connection to database failed: " ++ c_str (connect_error src))
      /\ st_heap s' = <[rb := reset_bucket b]> (st_heap s)
      /\ stored_records (st_heap s') rb = Some []
      /\ st_pdesc s' = st_pdesc s
      /\ st_nmalloc s' = st_nmalloc s.
Proof.
  intros utf oid src opts rb garbage s b Hb Hc Hfit.
  unfold pg_exec_query. run_steps. rewrite Hb. run_steps.
  rewrite Hc. run_steps. unfold sprintf_errmsg. unfold txt in Hfit.
  destruct (Z.ltb_spec (Z.of_nat (length (list_ascii_of_string "Connection to database failed: " ++ c_str (connect_error src)))) 1024) as [_|Hno];
    [|lia].
  run_steps. eexists. split; [reflexivity|]. unfold caller_message. run_steps.
  rewrite <- !app_assoc.
  repeat split; try reflexivity.
  apply stored_records_reset. assumption.
Qed.

Lemma connection_failure_returns_false_witness :
  exists s',
    pg_exec_query sample_utf sample_oids (sample_source false false 0)
                  (mkOptions false (txt "select 1")) 0 false sample_state
    = inr (Returned false s')
    /\ st_trace s' = st_trace sample_state ++ [PQconnectdbParams; PQclear false; PQfinish]
    /\ caller_message s'
       = Some (txt "Connection to database failed: "
               ++ c_str (connect_error (sample_source false false 0)))
    /\ st_heap s' = <[0%nat := reset_bucket empty_bucket]> (st_heap sample_state)
    /\ stored_records (st_heap s') 0 = Some []
    /\ st_pdesc s' = st_pdesc sample_state
    /\ st_nmalloc s' = st_nmalloc sample_state.
Proof.
  apply (connection_failure_returns_false sample_utf sample_oids
           (sample_source false false 0) (mkOptions false (txt "select 1"))
           0%nat false sample_state empty_bucket).
  - reflexivity.
  - reflexivity.
  - vm_compute. reflexivity.
Defined.

(** X8. When the query does not return tuples (and the message fits the
    1024 bytes of [errmsg]) the call returns false having called [PQclear]
    on the result and [PQfinish]; [*err] points to "Query doesn't return
    data: " followed by libpq's message; the store holds no row; the layout
    and the allocator were not touched. *)
Theorem query_failure_returns_false :
  forall (utf : utf_dsplen_fn) (oid : pg_type_d) (src : Source) (opts : Options)
         (rb : ptr) (garbage : bool) (s : state) (b : RowBucketType),
    st_heap s !! rb = Some b ->
    connection_ok src = true -> tuples_ok src = false ->
    Z.of_nat (length (txt "Query doesn't return data: "
                      ++ c_str (exec_error src))) < 1024 ->
    exists s',
      pg_exec_query utf oid src opts rb garbage s = inr (Returned false s')
      /\ st_trace s' = st_trace s ++ [PQconnectdbParams; PQexec (query opts);
                                      PQclear true; PQfinish]
      /\ caller_message s'
         = Some (txt "Query doesn't return data: " ++ c_str (exec_error src))
      /\ st_heap s' = <[rb := reset_bucket b]> (st_heap s)
      /\ stored_records (st_heap s') rb = Some []
      /\ st_pdesc s' = st_pdesc s
      /\ st_nmalloc s' = st_nmalloc s.
Proof.
  intros utf oid src opts rb garbage s b Hb Hc Ht Hfit.
  unfold pg_exec_query. run_steps. rewrite Hb. run_steps.
  rewrite Hc. run_steps. rewrite Ht. run_steps.
  unfold sprintf_errmsg. unfold txt in Hfit.
  destruct (Z.ltb_spec (Z.of_nat (length (list_ascii_of_string "Query doesn't return data: " ++ c_str (exec_error src)))) 1024) as [_|Hno];
    [|lia].
  run_steps. eexists. split; [reflexivity|]. unfold caller_message. run_steps.
  rewrite <- !app_assoc.
  repeat split; try reflexivity.
  apply stored_records_reset. assumption.
Qed.

Lemma query_failure_returns_false_witness :
  exists s',
    pg_exec_query sample_utf sample_oids (sample_source true false 0)
                  (mkOptions false (txt "select 1")) 0 false sample_state
    = inr (Returned false s')
    /\ st_trace s' = st_trace sample_state
                     ++ [PQconnectdbParams; PQexec (txt "select 1"); PQclear true; PQfinish]
    /\ caller_message s'
       = Some (txt "Query doesn't return data: "
               ++ c_str (exec_error (sample_source true false 0)))
    /\ st_heap s' = <[0%nat := reset_bucket empty_bucket]> (st_heap sample_state)
    /\ stored_records (st_heap s') 0 = Some []
    /\ st_pdesc s' = st_pdesc sample_state
    /\ st_nmalloc s' = st_nmalloc sample_state.
Proof.
  apply (query_failure_returns_false sample_utf sample_oids
           (sample_source true false 0) (mkOptions false (txt "select 1"))
           0%nat false sample_state empty_bucket).
  - reflexivity.
  - reflexivity.
  - reflexivity.
  - vm_compute. reflexivity.
Defined.

(** X9. When the result has more than 1024 columns the call does not
    return: it calls [PQclear], [PQfinish] and [leave_ncurses("too much
    columns")] in that order; at that point the store holds no row, and the
    layout, [*err] and the allocator have not been touched. *)
Theorem too_many_columns_exits :
  forall (utf : utf_dsplen_fn) (oid : pg_type_d) (src : Source) (opts : Options)
         (rb : ptr) (garbage : bool) (s : state) (b : RowBucketType),
    st_heap s !! rb = Some b ->
    connection_ok src = true -> tuples_ok src = true ->
    1024 < PQnfields src ->
    pg_exec_query utf oid src opts rb garbage s
    = inr (Exited (mkState (<[rb := reset_bucket b]> (st_heap s)) (st_pdesc s)
                           (st_err s) (st_errmsg s)
                           (st_trace s ++ [PQconnectdbParams; PQexec (query opts);
                                           PQclear true; PQfinish;
                                           leave_ncurses "too much columns"])
                           (st_nmalloc s)))
    /\ stored_records (<[rb := reset_bucket b]> (st_heap s)) rb = Some [].
Proof.
  intros utf oid src opts rb garbage s b Hb Hc Ht Hn.
  split; [|apply stored_records_reset; assumption].
  unfold pg_exec_query. run_steps. rewrite Hb. run_steps.
  rewrite Hc. run_steps. rewrite Ht. run_steps.
  destruct (Z.gtb_spec (PQnfields src) 1024); [|lia].
  run_steps. rewrite <- !app_assoc. reflexivity.
Qed.

Lemma too_many_columns_exits_witness :
  pg_exec_query sample_utf sample_oids (sample_source true true 1025)
                (mkOptions false (txt "select 1")) 0 false sample_state
  = inr (Exited (mkState (<[0%nat := reset_bucket empty_bucket]> (st_heap sample_state))
                         (st_pdesc sample_state) (st_err sample_state)
                         (st_errmsg sample_state)
                         (st_trace sample_state
                          ++ [PQconnectdbParams; PQexec (txt "select 1");
                              PQclear true; PQfinish;
                              leave_ncurses "too much columns"])
                         (st_nmalloc sample_state)))
  /\ stored_records (<[0%nat := reset_bucket empty_bucket]> (st_heap sample_state)) 0
     = Some [].
Proof.
  apply (too_many_columns_exits sample_utf sample_oids (sample_source true true 1025)
           (mkOptions false (txt "select 1")) 0%nat false sample_state empty_bucket).
  - reflexivity.
  - reflexivity.
  - reflexivity.
  - simpl. lia.
Defined.

(** ** Counting loops *)

Lemma range_nonpos (n : Z) : n <= 0 -> range n = [].
Proof.
  intros Hn. unfold range. replace (Z.to_nat n) with 0%nat by lia. reflexivity.
Qed.

Lemma length_range (n : Z) : length (range n) = Z.to_nat n.
Proof. unfold range. rewrite length_map, length_seq. reflexivity. Qed.

Lemma range_lookup (n i : Z) : 0 <= i < n -> range n !! Z.to_nat i = Some i.
Proof.
  intros Hi. unfold range. rewrite list_lookup_fmap, lookup_seq_lt by lia.
  simpl. rewrite Z2Nat.id by lia. reflexivity.
Qed.

(** A loop that keeps an invariant and whose body is defined under it runs
    to its end. *)
Lemma for_each_seq_inv {A : Type} (P : Z -> A -> Prop) (body : Z -> A -> option A)
    (m : nat) : forall (k : nat) (a : A),
  P (Z.of_nat k) a ->
  (forall i x, Z.of_nat k <= i < Z.of_nat (k + m) -> P i x ->
     exists x', body i x = Some x' /\ P (i + 1) x') ->
  exists a', for_each (map Z.of_nat (seq k m)) body a = Some a'
             /\ P (Z.of_nat (k + m)) a'.
Proof.
  induction m as [|m IH]; intros k a HP Hstep; simpl.
  - exists a. rewrite Nat.add_0_r. auto.
  - destruct (Hstep (Z.of_nat k) a) as (a1 & -> & HP1); [lia|assumption|].
    destruct (IH (S k) a1) as (a' & Hrun & HP').
    + replace (Z.of_nat (S k)) with (Z.of_nat k + 1) by lia. assumption.
    + intros i x Hi. apply Hstep. lia.
    + exists a'. split; [assumption|].
      replace (k + S m)%nat with (S k + m)%nat by lia. assumption.
Qed.

Lemma for_each_range_inv {A : Type} (P : Z -> A -> Prop) (body : Z -> A -> option A)
    (n : Z) (a : A) :
  0 <= n ->
  P 0 a ->
  (forall i x, 0 <= i < n -> P i x -> exists x', body i x = Some x' /\ P (i + 1) x') ->
  exists a', for_each (range n) body a = Some a' /\ P n a'.
Proof.
  intros Hn HP Hstep. unfold range.
  destruct (for_each_seq_inv P body (Z.to_nat n) 0 a) as (a' & Hrun & HP').
  - assumption.
  - intros i x Hi. apply Hstep. lia.
  - exists a'. split; [assumption|].
    replace (Z.of_nat (0 + Z.to_nat n)) with n in HP' by lia. assumption.
Qed.

Lemma for_M_seq_inv {A : Type} (P : Z -> A -> state -> Prop) (body : Z -> A -> M A)
    (m : nat) : forall (k : nat) (a : A) (s : state),
  P (Z.of_nat k) a s ->
  (forall i x t, Z.of_nat k <= i < Z.of_nat (k + m) -> P i x t ->
     exists x' t', body i x t = inl (x', t') /\ P (i + 1) x' t') ->
  exists a' s', for_M (map Z.of_nat (seq k m)) body a s = inl (a', s')
                /\ P (Z.of_nat (k + m)) a' s'.
Proof.
  induction m as [|m IH]; intros k a s HP Hstep; simpl.
  - exists a, s. rewrite Nat.add_0_r. auto.
  - destruct (Hstep (Z.of_nat k) a s) as (a1 & s1 & Hb & HP1); [lia|assumption|].
    destruct (IH (S k) a1 s1) as (a' & s' & Hrun & HP').
    + replace (Z.of_nat (S k)) with (Z.of_nat k + 1) by lia. assumption.
    + intros i x t Hi. apply Hstep. lia.
    + exists a', s'. unfold bind. rewrite Hb. split; [assumption|].
      replace (k + S m)%nat with (S k + m)%nat by lia. assumption.
Qed.

Lemma for_M_range_inv {A : Type} (P : Z -> A -> state -> Prop) (body : Z -> A -> M A)
    (n : Z) (a : A) (s : state) :
  P 0 a s ->
  (forall i x t, 0 <= i < n -> P i x t ->
     exists x' t', body i x t = inl (x', t') /\ P (i + 1) x' t') ->
  exists a' s', for_M (range n) body a s = inl (a', s') /\ P (Z.max 0 n) a' s'.
Proof.
  intros HP Hstep. unfold range.
  destruct (for_M_seq_inv P body (Z.to_nat n) 0 a s) as (a' & s' & Hrun & HP').
  - assumption.
  - intros i x t Hi. apply Hstep. lia.
  - exists a', s'. split; [assumption|].
    replace (Z.of_nat (0 + Z.to_nat n)) with (Z.max 0 n) in HP' by lia. assumption.
Qed.

(** ** Texts in a buffer *)

Lemma c_str_no_nul (s : list ascii) :
  Forall (fun c => Ascii.eqb c NUL = false) (c_str s).
Proof.
  induction s as [|c s IH]; simpl; [constructor|].
  destruct (Ascii.eqb c NUL) eqn:Hc; [constructor|].
  constructor; assumption.
Qed.

Lemma c_str_idem (s : list ascii) : c_str (c_str s) = c_str s.
Proof.
  induction s as [|c s IH]; simpl; [reflexivity|].
  destruct (Ascii.eqb c NUL) eqn:Hc; [reflexivity|].
  simpl. rewrite Hc, IH. reflexivity.
Qed.

Lemma c_str_id (s : list ascii) :
  Forall (fun c => Ascii.eqb c NUL = false) s -> c_str s = s.
Proof.
  induction 1 as [|c s Hc _ IH]; simpl; [reflexivity|].
  rewrite Hc, IH. reflexivity.
Qed.

(** Writing over cells that lie between [pre] and [post]. *)
Lemma write_bytes_spec (bs : list ascii) :
  forall (pre mid post : list (option ascii)),
    length mid = length bs ->
    write_bytes (pre ++ mid ++ post) (Z.of_nat (length pre)) bs
    = Some (pre ++ map Some bs ++ post).
Proof.
  induction bs as [|c bs IH]; intros pre mid post Hlen.
  - destruct mid; [reflexivity|discriminate].
  - destruct mid as [|m mid]; [discriminate|]. simpl in Hlen.
    cbn [write_bytes]. rewrite array_set_Some
      by (rewrite length_app; simpl; lia).
    rewrite Nat2Z.id.
    replace (<[length pre := Some c]> (pre ++ (m :: mid) ++ post))
      with ((pre ++ [Some c]) ++ mid ++ post).
    + replace (Z.of_nat (length pre) + 1) with (Z.of_nat (length (pre ++ [Some c])))
        by (rewrite length_app; simpl; lia).
      rewrite IH by lia. rewrite <- app_assoc. reflexivity.
    + rewrite insert_app_r_alt by lia. rewrite Nat.sub_diag.
      rewrite <- app_assoc. reflexivity.
Qed.

(** Reading back a text that was written with its terminator. *)
Lemma read_text_spec (t : list ascii) (rest : list (option ascii)) :
  Forall (fun c => Ascii.eqb c NUL = false) t ->
  read_text (map Some (t ++ [NUL]) ++ rest) = Some t.
Proof.
  induction 1 as [|c t Hc _ IH]; simpl.
  - reflexivity.
  - rewrite Hc, IH. reflexivity.
Qed.

Lemma packed_succ text k :
  0 <= k -> packed text (k + 1) = packed text k ++ c_str (text k) ++ [NUL].
Proof.
  intros Hk. unfold packed. rewrite range_succ by assumption.
  rewrite map_app, concat_app. simpl. rewrite app_nil_r. reflexivity.
Qed.

Lemma offset_succ text k :
  0 <= k -> offset text (k + 1) = offset text k + strlen (text k) + 1.
Proof.
  intros Hk. unfold offset, strlen. rewrite packed_succ by assumption.
  rewrite !length_app. simpl. lia.
Qed.

Lemma offset_0 text : offset text 0 = 0.
Proof. reflexivity. Qed.

Lemma offset_nonneg text k : 0 <= offset text k.
Proof. unfold offset. lia. Qed.

Lemma offset_mono text i j : 0 <= i <= j -> offset text i <= offset text j.
Proof.
  intros [Hi Hij]. replace j with (i + Z.of_nat (Z.to_nat (j - i))) by lia.
  induction (Z.to_nat (j - i)) as [|d IH]; [rewrite Z.add_0_r; lia|].
  replace (i + Z.of_nat (S d)) with (i + Z.of_nat d + 1) by lia.
  rewrite offset_succ by lia. unfold strlen. lia.
Qed.

(** [size] is the number of bytes needed when that number fits an [int]. *)
Lemma row_size_exact text n :
  offset text n <= INT_MAX -> row_size text n = offset text n.
Proof.
  intros Hfit. destruct (Z.le_gt_cases n 0) as [Hn|Hn].
  { unfold row_size, offset, packed. rewrite range_nonpos by assumption. reflexivity. }
  unfold row_size.
  assert (H : forall m : nat, Z.of_nat m <= n ->
            fold_left (fun size i => int_wrap (size + strlen (text i) + 1))
                      (range (Z.of_nat m)) 0 = offset text (Z.of_nat m)).
  { induction m as [|m IH]; intros Hm; [reflexivity|].
    replace (Z.of_nat (S m)) with (Z.of_nat m + 1) by lia.
    rewrite range_succ, fold_left_app by lia. simpl. rewrite IH by lia.
    rewrite offset_succ by lia.
    pose proof (offset_mono text (Z.of_nat m + 1) n ltac:(lia)) as Hle.
    rewrite offset_succ in Hle by lia.
    pose proof (offset_nonneg text (Z.of_nat m)). unfold strlen in *.
    apply int_wrap_id. lia. }
  rewrite <- (Z2Nat.id n) by lia. apply H. lia.
Qed.

Lemma store_header_field_eq utf src opts i f :
  store_header_field utf src opts i f
  = store_field utf opts (PQfname src i) header_update i f.
Proof.
  unfold store_header_field, store_field, header_update.
  destruct (strcpy _ _ _) as [buf|]; [|reflexivity]. simpl.
  destruct (array_set _ _ _) as [flds|]; [|reflexivity]. simpl.
  destruct (array_get _ _) as [off|]; [|reflexivity]. simpl.
  destruct (string_at _ _) as [str|]; [|reflexivity]. simpl.
  destruct (field_info _ _ _ _) as [w mc].
  destruct (list_set (widths _) _ _) as [ws|]; [|reflexivity]. simpl.
  destruct (list_set (pd_multilines _) _ _) as [ms|]; reflexivity.
Qed.

Lemma store_data_field_eq utf src opts i j f :
  store_data_field utf src opts i j f
  = store_field utf opts (PQgetvalue src i j) data_update j f.
Proof.
  unfold store_data_field, store_field, data_update.
  destruct (strcpy _ _ _) as [buf|]; [|reflexivity]. simpl.
  destruct (array_set _ _ _) as [flds|]; [|reflexivity]. simpl.
  destruct (array_get _ _) as [off|]; [|reflexivity]. simpl.
  destruct (string_at _ _) as [str|]; [|reflexivity]. simpl.
  destruct (field_info _ _ _ _) as [w mc].
  destruct (list_get (widths _) _) as [old|]; [|reflexivity]. simpl.
  destruct (list_set (widths _) _ _) as [ws|]; [|reflexivity]. simpl.
  destruct (list_get (pd_multilines _) _) as [oldm|]; [|reflexivity]. simpl.
  destruct (list_set (pd_multilines _) _ _) as [ms|]; reflexivity.
Qed.

Lemma filled_start text n pd mr mc :
  0 <= n ->
  filled text n 0 (mkFill (array_new (offset text n)) 0 (array_new n) pd mr mc).
Proof.
  intros Hn. unfold filled, array_new. simpl.
  rewrite !Z.sub_0_r. repeat split; reflexivity.
Qed.

(** One more text: the copy fits, the field pointer is recorded, and the
    text read back through it is the text supplied. *)
Lemma filled_step text n k f :
  filled text n k f -> 0 <= k < n ->
  exists buf flds,
    strcpy (f_buf f) (f_locbuf f) (text k) = Some buf
    /\ array_set (f_fields f) k (f_locbuf f) = Some flds
    /\ array_get flds k = Some (offset text k)
    /\ string_at buf (offset text k) = Some (c_str (text k))
    /\ forall pd mr mc,
         filled text n (k + 1)
                (mkFill buf (f_locbuf f + strlen (text k) + 1) flds pd mr mc).
Proof.
  intros (Hbuf & Hloc & Hflds) Hk.
  pose proof (offset_mono text (k + 1) n ltac:(lia)) as Hle.
  pose proof (offset_succ text k ltac:(lia)) as Hsucc.
  pose proof (offset_nonneg text k) as Hnn.
  assert (Hs : 0 <= strlen (text k)) by (unfold strlen; lia).
  set (t := c_str (text k) ++ [NUL]).
  assert (Hlt : length t = Z.to_nat (strlen (text k) + 1)).
  { unfold t, strlen. rewrite length_app. simpl. lia. }
  set (gap := Z.to_nat (offset text n - offset text (k + 1))).
  assert (Hsplit : replicate (Z.to_nat (offset text n - offset text k)) (@None ascii)
                   = replicate (length t) None ++ replicate gap None).
  { rewrite <- replicate_add. f_equal. unfold gap. rewrite Hlt. lia. }
  assert (Hcopy : strcpy (f_buf f) (f_locbuf f) (text k)
                  = Some (map Some (packed text (k + 1)) ++ replicate gap None)).
  { unfold strcpy. fold t. rewrite Hbuf, Hloc, Hsplit.
    replace (offset text k) with (Z.of_nat (length (map Some (packed text k))))
      by (rewrite length_map; reflexivity).
    rewrite write_bytes_spec by (rewrite length_replicate; reflexivity).
    rewrite packed_succ by lia. fold t. rewrite map_app, <- app_assoc. reflexivity. }
  assert (Hset : array_set (f_fields f) k (f_locbuf f)
                 = Some (map (fun i => Some (offset text i)) (range (k + 1))
                         ++ replicate (Z.to_nat (n - (k + 1))) None)).
  { rewrite Hflds, Hloc.
    rewrite array_set_Some
      by (rewrite length_app, length_map, length_range, length_replicate; lia).
    f_equal. rewrite insert_app_r_alt by (rewrite length_map, length_range; lia).
    rewrite length_map, length_range, Nat.sub_diag.
    replace (Z.to_nat (n - k)) with (S (Z.to_nat (n - (k + 1)))) by lia.
    simpl. rewrite range_succ, map_app, <- app_assoc by lia. reflexivity. }
  eexists _, _. split; [exact Hcopy|]. split; [exact Hset|].
  split; [|split].
  - unfold array_get. destruct (Z.leb_spec 0 k); [|lia].
    rewrite lookup_app_l by (rewrite length_map, length_range; lia).
    rewrite list_lookup_fmap, range_lookup by lia. reflexivity.
  - unfold string_at. destruct (Z.leb_spec 0 (offset text k)); [|lia].
    rewrite packed_succ by lia. fold t.
    rewrite map_app, <- app_assoc.
    rewrite drop_app_length'
      by (rewrite length_map; unfold offset; lia).
    apply read_text_spec, c_str_no_nul.
  - intros pd mr mc. unfold filled. cbn [f_buf f_locbuf f_fields].
    split; [reflexivity|]. split; [rewrite Hloc; lia|reflexivity].
Qed.

Lemma for_each_ext {A : Type} (body body' : Z -> A -> option A) (ix : list Z) (a : A) :
  (forall i x, body i x = body' i x) -> for_each ix body a = for_each ix body' a.
Proof.
  intros Hext. revert a. induction ix as [|i ix IH]; intros a; simpl; [reflexivity|].
  rewrite Hext. destruct (body' i a); auto.
Qed.

Lemma store_field_step utf opts text upd n k f pd' :
  filled text n k f -> 0 <= k < n ->
  upd k (fst (field_info utf opts (c_str (text k)) (f_multiline_col f)))
        (snd (field_info utf opts (c_str (text k)) (f_multiline_col f)))
        (f_pdesc f) = Some pd' ->
  exists f', store_field utf opts (text k) upd k f = Some f'
             /\ filled text n (k + 1) f'
             /\ f_pdesc f' = pd'
             /\ f_multiline_col f'
                = snd (field_info utf opts (c_str (text k)) (f_multiline_col f))
             /\ f_multiline_row f'
                = f_multiline_row f
                  || snd (field_info utf opts (c_str (text k)) (f_multiline_col f)).
Proof.
  intros Hf Hk Hupd.
  destruct (filled_step text n k f Hf Hk) as (buf & flds & Hcopy & Hset & Hget & Hread & Hnext).
  unfold store_field. rewrite Hcopy. simpl. rewrite Hset. simpl.
  rewrite Hget. simpl. rewrite Hread. simpl.
  destruct (field_info utf opts (c_str (text k)) (f_multiline_col f)) as [w mc].
  simpl in Hupd. rewrite Hupd. simpl.
  eexists. split; [reflexivity|]. split; [apply Hnext|]. auto.
Qed.

(** The loop over the [n] texts of a row, for a layout update that is
    defined under the invariant [Q] and keeps it. *)
Lemma fill_loop utf opts text upd n
    (Q : Z -> PrintDataDesc -> bool -> bool -> Prop) pd0 mr0 mc0 :
  0 <= n ->
  Q 0 pd0 mc0 mr0 ->
  (forall k pd mcol mrow, 0 <= k < n -> Q k pd mcol mrow ->
     exists pd',
       upd k (fst (field_info utf opts (c_str (text k)) mcol))
             (snd (field_info utf opts (c_str (text k)) mcol)) pd = Some pd'
       /\ Q (k + 1) pd' (snd (field_info utf opts (c_str (text k)) mcol))
            (mrow || snd (field_info utf opts (c_str (text k)) mcol))) ->
  exists f,
    for_each (range n) (fun i => store_field utf opts (text i) upd i)
             (mkFill (array_new (offset text n)) 0 (array_new n) pd0 mr0 mc0) = Some f
    /\ mkRow n (f_fields f) (f_buf f) = packed_row text n
    /\ Q n (f_pdesc f) (f_multiline_col f) (f_multiline_row f).
Proof.
  intros Hn HQ Hstep.
  destruct (for_each_range_inv
              (fun k f => filled text n k f
                          /\ Q k (f_pdesc f) (f_multiline_col f) (f_multiline_row f))
              (fun i => store_field utf opts (text i) upd i) n
              (mkFill (array_new (offset text n)) 0 (array_new n) pd0 mr0 mc0))
    as (f & Hrun & Hfill & HQn).
  - assumption.
  - split; [apply filled_start; assumption|assumption].
  - intros k f Hk [Hf HQk].
    destruct (Hstep k _ _ _ Hk HQk) as (pd' & Hupd & HQ').
    destruct (store_field_step utf opts text upd n k f pd' Hf Hk Hupd)
      as (f' & Hrun & Hf' & Hpd & Hmc & Hmr).
    exists f'. split; [assumption|]. split; [assumption|].
    rewrite Hpd, Hmc, Hmr. assumption.
  - exists f. split; [assumption|]. split; [|assumption].
    destruct Hfill as (Hbuf & _ & Hflds). unfold packed_row.
    rewrite Hbuf, Hflds, !Z.sub_diag. simpl. rewrite !app_nil_r. reflexivity.
Qed.

(** ** The arrays of the layout *)

Lemma list_set_Some {A : Type} (l : list A) (i : Z) (x : A) :
  0 <= i < Z.of_nat (length l) -> list_set l i x = Some (<[Z.to_nat i := x]> l).
Proof.
  intros Hi. unfold list_set.
  destruct (Z.leb_spec 0 i); [|lia].
  destruct (Z.ltb_spec i (Z.of_nat (length l))); [reflexivity|lia].
Qed.

Lemma list_get_insert_eq {A : Type} (l : list A) (i : Z) (x : A) :
  0 <= i < Z.of_nat (length l) -> list_get (<[Z.to_nat i := x]> l) i = Some x.
Proof.
  intros Hi. unfold list_get. destruct (Z.leb_spec 0 i); [|lia].
  apply list_lookup_insert_eq. lia.
Qed.

Lemma list_get_insert_ne {A : Type} (l : list A) (i j : Z) (x : A) :
  0 <= i -> i <> j -> list_get (<[Z.to_nat i := x]> l) j = list_get l j.
Proof.
  intros Hi Hne. unfold list_get. destruct (Z.leb_spec 0 j); [|reflexivity].
  apply list_lookup_insert_ne. lia.
Qed.

Lemma list_get_lt {A : Type} (l : list A) (i : Z) :
  0 <= i < Z.of_nat (length l) -> exists x, list_get l i = Some x.
Proof.
  intros Hi. unfold list_get. destruct (Z.leb_spec 0 i); [|lia].
  apply lookup_lt_is_Some. lia.
Qed.

Lemma field_info_fst_flag utf opts s m m' :
  fst (field_info utf opts s m) = fst (field_info utf opts s m').
Proof.
  unfold field_info. destruct (force8bit opts).
  - apply field_info_8bit_width_flag.
  - destruct (utf s (strlen s) false) as [[[r ml] d] o]. reflexivity.
Qed.

Lemma field_width_flag utf opts t m :
  fst (field_info utf opts (c_str t) m) = field_width utf opts t.
Proof. apply field_info_fst_flag. Qed.

(** ** The three loops over the columns *)

Lemma types_loop oid src pd0 n :
  0 <= n <= Z.of_nat (length (types pd0)) ->
  exists pd, for_each (range n) (set_type oid src) pd0 = Some pd
             /\ types_layout oid src pd0 n pd.
Proof.
  intros Hn.
  apply (for_each_range_inv (types_layout oid src pd0)); [lia| |].
  - unfold types_layout. repeat split; auto. intros i Hi. lia.
  - intros k pd Hk (Hnf & Hhh & Hw & Hm & Hlen & Hdone & Hrest).
    unfold set_type. rewrite list_set_Some by lia. simpl.
    eexists. split; [reflexivity|]. unfold types_layout. simpl.
    rewrite length_insert. repeat split; auto.
    + intros i Hi. destruct (Z.eq_dec i k) as [->|Hne].
      * apply list_get_insert_eq. lia.
      * rewrite list_get_insert_ne by lia. apply Hdone. lia.
    + intros i Hi. rewrite list_get_insert_ne by lia. apply Hrest. lia.
Qed.

Lemma header_update_step utf opts text pd0 n k pd mcol :
  0 <= k < n ->
  n <= Z.of_nat (length (widths pd0)) -> n <= Z.of_nat (length (pd_multilines pd0)) ->
  header_layout utf opts text pd0 k pd ->
  exists pd',
    header_update k (fst (field_info utf opts (c_str (text k)) mcol))
                    (snd (field_info utf opts (c_str (text k)) mcol)) pd = Some pd'
    /\ header_layout utf opts text pd0 (k + 1) pd'.
Proof.
  intros Hk Hnw Hnm (Hnf & Hhh & Hty & Hlw & Hlm & Hdone & Hrest).
  unfold header_update. rewrite !list_set_Some by lia. simpl.
  eexists. split; [reflexivity|]. unfold header_layout. simpl.
  rewrite !length_insert. repeat split; auto.
  - intros i Hi. destruct (Z.eq_dec i k) as [->|Hne].
    + rewrite list_get_insert_eq by lia. rewrite field_width_flag. reflexivity.
    + rewrite list_get_insert_ne by lia. apply Hdone. lia.
  - intros i Hi. rewrite list_get_insert_ne by lia. apply Hrest. lia.
Qed.

Lemma data_update_step utf opts text pd0 n k pd mcol :
  0 <= k < n ->
  n <= Z.of_nat (length (widths pd0)) -> n <= Z.of_nat (length (pd_multilines pd0)) ->
  data_layout utf opts text pd0 k pd ->
  exists pd',
    data_update k (fst (field_info utf opts (c_str (text k)) mcol))
                  (snd (field_info utf opts (c_str (text k)) mcol)) pd = Some pd'
    /\ data_layout utf opts text pd0 (k + 1) pd'.
Proof.
  intros Hk Hnw Hnm (Hnf & Hhh & Hty & Hlw & Hlm & Hdone & Hrest).
  unfold data_update.
  destruct (list_get_lt (widths pd) k) as [old Hold]; [lia|].
  destruct (list_get_lt (pd_multilines pd) k) as [oldm Holdm]; [lia|].
  rewrite Hold. simpl. rewrite list_set_Some by lia. simpl.
  rewrite Holdm. simpl. rewrite list_set_Some by lia. simpl.
  eexists. split; [reflexivity|]. unfold data_layout. simpl.
  rewrite !length_insert. repeat split; auto.
  - intros i Hi. destruct (Z.eq_dec i k) as [->|Hne].
    + exists old. split; [rewrite <- Hrest by lia; assumption|].
      rewrite list_get_insert_eq by lia.
      rewrite max_int_max, field_width_flag. reflexivity.
    + rewrite list_get_insert_ne by lia. apply Hdone. lia.
  - intros i Hi. rewrite list_get_insert_ne by lia. apply Hrest. lia.
Qed.

Lemma fresh_buffer_size text n :
  offset text n <= INT_MAX -> size_t_wrap (row_size text n) = offset text n.
Proof.
  intros Hfit. rewrite row_size_exact by assumption.
  unfold size_t_wrap. apply Z.mod_small.
  pose proof (offset_nonneg text n). unfold INT_MAX in *. lia.
Qed.

(** The header loop, lines 204-216. *)
Lemma header_loop utf src opts pd0 n garbage :
  0 <= n ->
  n <= Z.of_nat (length (widths pd0)) -> n <= Z.of_nat (length (pd_multilines pd0)) ->
  offset (PQfname src) n <= INT_MAX ->
  exists f,
    for_each (range n) (store_header_field utf src opts)
             (mkFill (array_new (size_t_wrap (row_size (PQfname src) n))) 0
                     (array_new n) pd0 false garbage) = Some f
    /\ mkRow n (f_fields f) (f_buf f) = packed_row (PQfname src) n
    /\ header_layout utf opts (PQfname src) pd0 n (f_pdesc f).
Proof.
  intros Hn Hnw Hnm Hfit. rewrite fresh_buffer_size by assumption.
  rewrite (for_each_ext _ (fun i => store_field utf opts (PQfname src i) header_update i))
    by (intros; apply store_header_field_eq).
  apply (fill_loop utf opts (PQfname src) header_update n
           (fun k pd _ _ => header_layout utf opts (PQfname src) pd0 k pd)).
  - assumption.
  - unfold header_layout. repeat split; auto. intros i Hi. lia.
  - intros k pd mcol mrow Hk HQ.
    apply (header_update_step utf opts (PQfname src) pd0 n); assumption.
Qed.

(** The loop over the fields of data row [i], lines 241-253. *)
Lemma data_loop utf src opts pd0 n i mc0 :
  0 <= n ->
  n <= Z.of_nat (length (widths pd0)) -> n <= Z.of_nat (length (pd_multilines pd0)) ->
  offset (PQgetvalue src i) n <= INT_MAX ->
  exists f,
    for_each (range n) (store_data_field utf src opts i)
             (mkFill (array_new (size_t_wrap (row_size (PQgetvalue src i) n))) 0
                     (array_new n) pd0 false mc0) = Some f
    /\ mkRow n (f_fields f) (f_buf f) = packed_row (PQgetvalue src i) n
    /\ data_layout utf opts (PQgetvalue src i) pd0 n (f_pdesc f).
Proof.
  intros Hn Hnw Hnm Hfit. rewrite fresh_buffer_size by assumption.
  rewrite (for_each_ext _ (fun j => store_field utf opts (PQgetvalue src i j) data_update j))
    by (intros; apply store_data_field_eq).
  apply (fill_loop utf opts (PQgetvalue src i) data_update n
           (fun k pd _ _ => data_layout utf opts (PQgetvalue src i) pd0 k pd)).
  - assumption.
  - unfold data_layout. repeat split; auto. intros j Hj. lia.
  - intros k pd mcol mrow Hk HQ.
    apply (data_update_step utf opts (PQgetvalue src i) pd0 n); assumption.
Qed.

(** ** Reading a row back *)

Lemma packed_prefix text k n :
  0 <= k <= n -> exists rest, packed text n = packed text k ++ rest.
Proof.
  intros [Hk Hkn]. replace n with (k + Z.of_nat (Z.to_nat (n - k))) by lia.
  induction (Z.to_nat (n - k)) as [|d [rest IH]].
  - exists []. rewrite Z.add_0_r, app_nil_r. reflexivity.
  - replace (k + Z.of_nat (S d)) with (k + Z.of_nat d + 1) by lia.
    rewrite packed_succ by lia. rewrite IH, <- app_assoc. eauto.
Qed.

Lemma packed_row_fields text n j :
  0 <= j < n -> array_get (fields (packed_row text n)) j = Some (offset text j).
Proof.
  intros Hj. unfold array_get, packed_row. cbn [fields].
  destruct (Z.leb_spec 0 j); [|lia].
  rewrite list_lookup_fmap, range_lookup by lia. reflexivity.
Qed.

Lemma packed_row_holds_texts text n : holds_texts (packed_row text n) text n.
Proof.
  split; [reflexivity|]. intros j Hj.
  destruct (packed_prefix text (j + 1) n ltac:(lia)) as [rest Hrest].
  rewrite packed_succ in Hrest by lia.
  pose proof (offset_nonneg text j) as Hnn.
  split.
  - unfold row_field. rewrite packed_row_fields by assumption.
    unfold string_at, packed_row. cbn [payload].
    destruct (Z.leb_spec 0 (offset text j)); [|lia].
    rewrite Hrest, <- !app_assoc, !map_app.
    rewrite drop_app_length' by (rewrite length_map; unfold offset; lia).
    rewrite app_assoc, <- map_app.
    apply read_text_spec, c_str_no_nul.
  - exists (offset text j). split; [apply packed_row_fields; assumption|]. split.
    + unfold array_get, packed_row. cbn [payload].
      destruct (Z.leb_spec 0 (offset text j + strlen (text j)));
        [|unfold strlen in *; lia].
      rewrite Hrest, list_lookup_fmap.
      replace (Z.to_nat (offset text j + strlen (text j)))
        with (length (packed text j ++ c_str (text j)))
        by (rewrite length_app; unfold offset, strlen; lia).
      rewrite <- !app_assoc, app_assoc. simpl.
      rewrite list_lookup_middle by reflexivity. reflexivity.
    + intros Hnext. rewrite packed_row_fields by lia.
      rewrite offset_succ by lia. reflexivity.
Qed.

(** X10. The two loops that fill a row build a row that holds the texts
    supplied: when the bytes of the texts and their terminators fit an
    [int] (and the layout has room for the columns), the loop over the
    column names and the loop over the values of a data row run without
    writing outside the buffer, and each field of the row built reads back
    as the text supplied for it, ends at its own terminator, and is
    followed directly by the next field. *)
Theorem row_fields_round_trip :
  forall (utf : utf_dsplen_fn) (src : Source) (opts : Options) (pd0 : PrintDataDesc)
         (n i : Z) (mc0 : bool),
    0 <= n ->
    n <= Z.of_nat (length (widths pd0)) ->
    n <= Z.of_nat (length (pd_multilines pd0)) ->
    offset (PQfname src) n <= INT_MAX ->
    offset (PQgetvalue src i) n <= INT_MAX ->
    (exists f,
       for_each (range n) (store_header_field utf src opts)
                (mkFill (array_new (size_t_wrap (row_size (PQfname src) n))) 0
                        (array_new n) pd0 false mc0) = Some f
       /\ holds_texts (mkRow n (f_fields f) (f_buf f)) (PQfname src) n)
    /\ (exists f,
          for_each (range n) (store_data_field utf src opts i)
                   (mkFill (array_new (size_t_wrap (row_size (PQgetvalue src i) n))) 0
                           (array_new n) pd0 false mc0) = Some f
          /\ holds_texts (mkRow n (f_fields f) (f_buf f)) (PQgetvalue src i) n).
Proof.
  intros utf src opts pd0 n i mc0 Hn Hw Hm Hfit Hfiti. split.
  - destruct (header_loop utf src opts pd0 n mc0 Hn Hw Hm Hfit) as (f & Hrun & Hrow & _).
    exists f. split; [assumption|]. rewrite Hrow. apply packed_row_holds_texts.
  - destruct (data_loop utf src opts pd0 n i mc0 Hn Hw Hm Hfiti) as (f & Hrun & Hrow & _).
    exists f. split; [assumption|]. rewrite Hrow. apply packed_row_holds_texts.
Qed.

Lemma row_fields_round_trip_witness :
  (exists f,
     for_each (range 2) (store_header_field sample_utf sample_table (mkOptions true []))
              (mkFill (array_new (size_t_wrap (row_size (PQfname sample_table) 2))) 0
                      (array_new 2) sample_pdesc false true) = Some f
     /\ holds_texts (mkRow 2 (f_fields f) (f_buf f)) (PQfname sample_table) 2)
  /\ (exists f,
        for_each (range 2) (store_data_field sample_utf sample_table (mkOptions true []) 1)
                 (mkFill (array_new (size_t_wrap (row_size (PQgetvalue sample_table 1) 2))) 0
                         (array_new 2) sample_pdesc false true) = Some f
        /\ holds_texts (mkRow 2 (f_fields f) (f_buf f)) (PQgetvalue sample_table 1) 2).
Proof.
  apply (row_fields_round_trip sample_utf sample_table (mkOptions true [])
           sample_pdesc 2 1 true).
  - lia.
  - vm_compute. discriminate.
  - vm_compute. discriminate.
  - vm_compute. discriminate.
  - vm_compute. discriminate.
Defined.

(** ** The run that returns true *)

Lemma push_row_true_step h head tail front bt recs r m :
  chained h head tail front bt -> sized bt ->
  stored_records h head = Some recs ->
  exists h1 rb1 front1 bt1,
    push_row true h tail r m = PushRb h1 rb1
    /\ chained h1 head rb1 front1 bt1 /\ sized bt1
    /\ stored_records h1 head = Some (recs ++ [(r, m)]).
Proof.
  intros Hch Hsz Hrs.
  pose proof Hch as (Hl & _ & _ & Hn).
  destruct (linked_end _ _ _ _ _ Hl) as [Hbt _]. pose proof Hsz as [Hr Hm].
  pose proof (push_row_ok h tail bt r m Hbt Hn Hr Hm) as Hok.
  assert (Hpush : exists h1 rb1, push_row true h tail r m = PushRb h1 rb1).
  { rewrite Hok. destruct (nrows bt >=? 1000); eauto. }
  destruct Hpush as (h1 & rb1 & Hpush).
  pose proof (push_row_stored _ _ _ _ _ _ _ _ _ _ _ Hch Hrs Hpush) as Hrs1.
  destruct (push_row_chained _ _ _ _ _ _ _ _ _ _ Hch Hpush)
    as [(_ & -> & -> & Hch1)|(_ & _ & -> & -> & Hch1)].
  - eexists _, _, _, _. split; [exact Hpush|]. split; [exact Hch1|].
    split; [apply sized_with_row; assumption|assumption].
  - eexists _, _, _, _. split; [exact Hpush|]. split; [exact Hch1|].
    split; [apply sized_first_row|assumption].
Qed.

Lemma push_or_exit_ok src head rb1 front bt recs row ml t :
  (forall k, malloc_ok src k = true) ->
  chained (st_heap t) head rb1 front bt -> sized bt ->
  stored_records (st_heap t) head = Some recs ->
  exists rb2 h2 n2 front2 bt2,
    push_or_exit src rb1 row ml t
    = inl (rb2, mkState h2 (st_pdesc t) (st_err t) (st_errmsg t) (st_trace t) n2)
    /\ chained h2 head rb2 front2 bt2 /\ sized bt2
    /\ stored_records h2 head = Some (recs ++ [(row, ml)]).
Proof.
  intros Hmalloc Hch Hsz Hrs.
  destruct (push_row_true_step _ _ _ _ _ _ row ml Hch Hsz Hrs)
    as (h1 & rb2 & front1 & bt1 & Hpush & Hch1 & Hsz1 & Hrs1).
  unfold push_or_exit. rewrite Hmalloc, Hpush.
  eexists rb2, h1, _, front1, bt1. split; [reflexivity|].
  split; [assumption|]. split; assumption.
Qed.

Lemma column_width_succ utf opts src i k :
  0 <= k ->
  column_width utf opts src i (k + 1)
  = Z.max (column_width utf opts src i k) (field_width utf opts (PQgetvalue src k i)).
Proof.
  intros Hk. unfold column_width.
  rewrite range_succ, map_app, fold_left_app by assumption. reflexivity.
Qed.

(** One data row: lines 225-257 under the loop invariant. *)
Lemma store_tuple_ok utf oid src opts head pd0 T0 E0 M0 k rb1 mc t :
  (forall j, malloc_ok src j = true) ->
  0 <= PQnfields src <= 1024 ->
  offset (PQgetvalue src k) (PQnfields src) <= INT_MAX ->
  0 <= k ->
  st_trace t = T0 -> st_err t = E0 -> st_errmsg t = M0 ->
  store_after src head k (st_heap t) rb1 ->
  layout_after utf oid opts src pd0 k (st_pdesc t) ->
  exists rb2 mc2 t2,
    store_tuple utf src opts (PQnfields src) k (rb1, mc) t = inl ((rb2, mc2), t2)
    /\ st_trace t2 = T0 /\ st_err t2 = E0 /\ st_errmsg t2 = M0
    /\ store_after src head (k + 1) (st_heap t2) rb2
    /\ layout_after utf oid opts src pd0 (k + 1) (st_pdesc t2).
Proof.
  intros Hmalloc Hn Hfit Hk HT HE HM (front & bt & recs & Hch & Hsz & Hrs & Hrows)
         (Hnf & Hhh & Hlt & Hlw & Hlm & Hcols & Hrest).
  destruct (data_loop utf src opts (st_pdesc t) (PQnfields src) k mc)
    as (f & Hrun & Hrow & (Dnf & Dhh & Dty & Dlw & Dlm & Ddone & Drest));
    try lia; try assumption.
  unfold store_tuple.
  repeat first [rewrite Hmalloc | progress run_steps | progress cbv beta].
  rewrite Hrun. repeat first [progress run_steps | progress cbv beta]. rewrite Hrow.
  set (t1 := mkState _ _ _ _ _ _).
  destruct (push_or_exit_ok src head rb1 front bt recs
              (packed_row (PQgetvalue src k) (PQnfields src)) (f_multiline_row f) t1)
    as (rb2 & h2 & n2 & front2 & bt2 & Hpush & Hch2 & Hsz2 & Hrs2); try assumption.
  rewrite Hpush. subst t1. repeat first [progress run_steps | progress cbv beta].
  eexists _, _, _. split; [reflexivity|]. cbn [st_heap st_pdesc st_err st_errmsg st_trace].
  split; [assumption|]. split; [assumption|]. split; [assumption|]. split.
  - exists front2, bt2, (recs ++ [(packed_row (PQgetvalue src k) (PQnfields src),
                                   f_multiline_row f)]).
    split; [assumption|]. split; [assumption|]. split; [assumption|].
    rewrite map_app, Hrows. unfold built_rows.
    rewrite range_succ, map_app by assumption. reflexivity.
  - unfold layout_after. rewrite Dnf, Dhh, Dty, Dlw, Dlm.
    split; [assumption|]. split; [assumption|]. split; [assumption|].
    split; [assumption|]. split; [assumption|]. split.
    + intros i Hi. destruct (Hcols i Hi) as [Hty Hwd]. split; [assumption|].
      destruct (Ddone i Hi) as (old & Hold & Hnew).
      rewrite Hwd in Hold. injection Hold as <-.
      rewrite Hnew, column_width_succ by assumption. reflexivity.
    + intros i Hi. destruct (Hrest i Hi) as [Hty Hwd]. split; [assumption|].
      rewrite Drest by assumption. assumption.
Qed.

Lemma chained_reset (h : heap) (rb : ptr) (b : RowBucketType) :
  h !! rb = Some b ->
  chained (<[rb := reset_bucket b]> h) rb rb [] (reset_bucket b).
Proof.
  intros Hb. assert (Hlt : (rb < length h)%nat) by (eapply lookup_lt_Some; eauto).
  unfold chained. simpl. split; [|split; [|split]].
  - apply linked_last; [|reflexivity]. apply list_lookup_insert_eq. assumption.
  - rewrite length_insert. lia.
  - reflexivity.
  - lia.
Qed.

(** Under [runs_through] the call returns true; the libpq calls are the
    connect, the query and the two releases; [*err] is NULL; the store
    holds the header row and the data rows in order; the layout holds the
    column count, the types and the widest text of each column. *)
Lemma pg_exec_query_runs utf oid src opts rb garbage s :
  runs_through src s rb ->
  exists s' tail,
    pg_exec_query utf oid src opts rb garbage s = inr (Returned true s')
    /\ st_trace s' = st_trace s ++ [PQconnectdbParams; PQexec (query opts);
                                    PQclear true; PQfinish]
    /\ st_err s' = ErrNULL /\ st_errmsg s' = st_errmsg s
    /\ store_after src rb (Z.max 0 (PQntuples src)) (st_heap s') tail
    /\ layout_after utf oid opts src (st_pdesc s) (Z.max 0 (PQntuples src)) (st_pdesc s').
Proof.
  intros ((b & Hb & Hsz) & Hc & Ht & Hn & Hlt & Hlw & Hlm & Hfit & Hfits & Hmalloc).
  set (n := PQnfields src) in *.
  set (pdA := mkDesc n true (types (st_pdesc s)) (widths (st_pdesc s))
                     (pd_multilines (st_pdesc s))).
  destruct (types_loop oid src pdA n) as (pd1 & Htypes & (Tnf & Thh & Tw & Tm & Tlen & Tdone & Trest)).
  { simpl. lia. }
  destruct (header_loop utf src opts pd1 n garbage)
    as (f & Hrun & Hrow & (Hnf & Hhh & Hty & Hflw & Hflm & Hdone & Hrest));
    try (rewrite ?Tw, ?Tm; simpl; lia); try assumption.
  unfold pg_exec_query.
  repeat first [progress run_steps | progress cbv beta].
  rewrite Hb. repeat first [progress run_steps | progress cbv beta].
  rewrite Hc. repeat first [progress run_steps | progress cbv beta].
  rewrite Ht. repeat first [progress run_steps | progress cbv beta].
  fold n. destruct (Z.gtb_spec n 1024) as [Hbig|_]; [lia|].
  repeat first [progress run_steps | progress cbv beta].
  fold pdA. rewrite Htypes.
  repeat first [rewrite Hmalloc | progress run_steps | progress cbv beta].
  rewrite Hrun. repeat first [progress run_steps | progress cbv beta]. rewrite Hrow.
  set (t1 := mkState _ _ _ _ _ _).
  destruct (push_or_exit_ok src rb rb [] (reset_bucket b) []
              (packed_row (PQfname src) n) (f_multiline_row f) t1)
    as (rb2 & h2 & n2 & front2 & bt2 & Hpush & Hch2 & Hsz2 & Hrs2).
  { assumption. }
  { apply chained_reset. assumption. }
  { exact Hsz. }
  { apply stored_records_reset. assumption. }
  rewrite Hpush. subst t1.
  repeat first [progress run_steps | progress cbv beta].
  set (t2 := mkState _ _ _ _ _ _).
  destruct (for_M_range_inv
              (fun k loc t =>
                 st_trace t = st_trace t2 /\ st_err t = st_err s
                 /\ st_errmsg t = st_errmsg s
                 /\ store_after src rb k (st_heap t) (fst loc)
                 /\ layout_after utf oid opts src (st_pdesc s) k (st_pdesc t))
              (store_tuple utf src opts n) (PQntuples src) (rb2, f_multiline_col f) t2)
    as ([rb3 mc3] & t3 & Hloop & HT & HE & HM & Hstore & Hlayout).
  - split; [reflexivity|]. split; [reflexivity|]. split; [reflexivity|]. split.
    + exists front2, bt2, [(packed_row (PQfname src) n, f_multiline_row f)].
      split; [assumption|]. split; [assumption|]. split; [assumption|]. reflexivity.
    + unfold layout_after. subst t2. cbn [st_pdesc].
      rewrite Hnf, Hhh, Hty, Hflw, Hflm, Tnf, Thh, Tlen, Tw, Tm. simpl.
      split; [reflexivity|]. split; [reflexivity|]. split; [assumption|].
      split; [assumption|]. split; [assumption|]. split.
      * intros i Hi. split; [apply Tdone; assumption|]. apply Hdone. assumption.
      * intros i Hi. split; [apply (Trest i Hi)|].
        rewrite Hrest, Tw by assumption. reflexivity.
  - intros k [rb1 mc] t Hk (HT & HE & HM & Hstore & Hlayout).
    destruct (store_tuple_ok utf oid src opts rb (st_pdesc s) (st_trace t2) (st_err s)
                (st_errmsg s) k rb1 mc t)
      as (rb4 & mc4 & t4 & Hstep & HT4 & HE4 & HM4 & Hstore4 & Hlayout4);
      try assumption; try lia.
    { apply Hfits. assumption. }
    exists (rb4, mc4), t4. split; [exact Hstep|]. auto.
  - rewrite Hloop. repeat first [progress run_steps | progress cbv beta].
    eexists _, rb3. split; [reflexivity|].
    cbn [st_heap st_pdesc st_err st_errmsg st_trace].
    rewrite HT, HM. subst t2. cbn [st_trace]. rewrite <- !app_assoc. simpl.
    split; [reflexivity|]. split; [reflexivity|]. split; [reflexivity|].
    split; assumption.
Qed.

(** The sample table satisfies the preconditions of a complete run. *)
Ltac sample_runs_through :=
  unfold runs_through;
  repeat match goal with
         | |- _ /\ _ => split
         | |- exists b, _ !! _ = Some b /\ _ => exists empty_bucket; split; [reflexivity|]
         | |- sized _ => split; reflexivity
         | |- forall i, 0 <= i < _ -> _ =>
             let i := fresh "i" in let Hi := fresh "Hi" in
             intros i Hi; simpl in Hi;
             assert (i = 0 \/ i = 1) as [-> | ->] by lia;
             vm_compute; discriminate
         | |- forall k, malloc_ok _ k = true => intros; reflexivity
         | |- _ <= _ => vm_compute; discriminate
         | |- _ = _ => reflexivity
         end.

(** X11. When the connection and the query succeed, the result has at
    most 1024 columns, each row fits an [int] of bytes and no allocation
    fails, the call returns true; between entry and return it has called
    [PQconnectdbParams], [PQexec] with the query of the options, [PQclear]
    on the result and [PQfinish], in that order and nothing else; [*err]
    is NULL and the buffer [errmsg] is as before. *)
Theorem complete_run_returns_true :
  forall (utf : utf_dsplen_fn) (oid : pg_type_d) (src : Source) (opts : Options)
         (rb : ptr) (garbage : bool) (s : state),
    runs_through src s rb ->
    exists s',
      pg_exec_query utf oid src opts rb garbage s = inr (Returned true s')
      /\ st_trace s' = st_trace s ++ [PQconnectdbParams; PQexec (query opts);
                                      PQclear true; PQfinish]
      /\ st_err s' = ErrNULL /\ caller_message s' = None
      /\ st_errmsg s' = st_errmsg s.
Proof.
  intros utf oid src opts rb garbage s Hrun.
  destruct (pg_exec_query_runs utf oid src opts rb garbage s Hrun)
    as (s' & tail & Hret & HT & HE & HM & _).
  exists s'. unfold caller_message. rewrite HE. auto.
Qed.

Lemma complete_run_returns_true_witness :
  exists s',
    pg_exec_query sample_utf sample_oids sample_table (mkOptions true (txt "select"))
                  0 true sample_state = inr (Returned true s')
    /\ st_trace s' = st_trace sample_state
                     ++ [PQconnectdbParams; PQexec (query (mkOptions true (txt "select")));
                         PQclear true; PQfinish]
    /\ st_err s' = ErrNULL /\ caller_message s' = None
    /\ st_errmsg s' = st_errmsg sample_state.
Proof.
  apply (complete_run_returns_true sample_utf sample_oids sample_table
           (mkOptions true (txt "select")) 0%nat true sample_state).
  sample_runs_through.
Defined.

(** [column_width] is a maximum: it bounds the width of the column name and
    of every value, and is one of them. *)
Lemma column_width_is_max utf opts src i k :
  0 <= k ->
  field_width utf opts (PQfname src i) <= column_width utf opts src i k
  /\ (forall r, 0 <= r < k ->
        field_width utf opts (PQgetvalue src r i) <= column_width utf opts src i k)
  /\ (column_width utf opts src i k = field_width utf opts (PQfname src i)
      \/ exists r, 0 <= r < k
                   /\ column_width utf opts src i k
                      = field_width utf opts (PQgetvalue src r i)).
Proof.
  intros Hk. rewrite <- (Z2Nat.id k) by assumption.
  induction (Z.to_nat k) as [|m (IH1 & IH2 & IH3)].
  - simpl. split; [reflexivity|]. split; [intros r Hr; lia|]. left. reflexivity.
  - replace (Z.of_nat (S m)) with (Z.of_nat m + 1) by lia.
    rewrite column_width_succ by lia.
    split; [lia|]. split.
    + intros r Hr. destruct (Z.eq_dec r (Z.of_nat m)) as [->|Hne]; [lia|].
      specialize (IH2 r ltac:(lia)). lia.
    + destruct (Z.max_spec (column_width utf opts src i (Z.of_nat m))
                           (field_width utf opts (PQgetvalue src (Z.of_nat m) i)))
        as [[_ ->]|[_ ->]].
      * right. exists (Z.of_nat m). split; [lia|reflexivity].
      * destruct IH3 as [IH3|(r & Hr & IH3)]; [left; assumption|].
        right. exists r. split; [lia|assumption].
Qed.

(** X12. After a complete run the width recorded for each column is the
    largest display width, as [field_info] computes it, among the column
    name and the values of that column in all data rows: it is at least
    each of them and equal to one of them.  Entries of [widths] beyond the
    columns are untouched. *)
Theorem complete_run_widths :
  forall (utf : utf_dsplen_fn) (oid : pg_type_d) (src : Source) (opts : Options)
         (rb : ptr) (garbage : bool) (s : state),
    runs_through src s rb ->
    exists s',
      pg_exec_query utf oid src opts rb garbage s = inr (Returned true s')
      /\ (forall i, 0 <= i < PQnfields src ->
            exists w,
              list_get (widths (st_pdesc s')) i = Some w
              /\ fst (field_info utf opts (c_str (PQfname src i)) false) <= w
              /\ (forall r, 0 <= r < PQntuples src ->
                    fst (field_info utf opts (c_str (PQgetvalue src r i)) false) <= w)
              /\ (w = fst (field_info utf opts (c_str (PQfname src i)) false)
                  \/ exists r, 0 <= r < PQntuples src
                       /\ w = fst (field_info utf opts (c_str (PQgetvalue src r i)) false)))
      /\ (forall i, PQnfields src <= i ->
            list_get (widths (st_pdesc s')) i = list_get (widths (st_pdesc s)) i).
Proof.
  intros utf oid src opts rb garbage s Hrun.
  destruct (pg_exec_query_runs utf oid src opts rb garbage s Hrun)
    as (s' & tail & Hret & _ & _ & _ & _ & (_ & _ & _ & _ & _ & Hcols & Hrest)).
  exists s'. split; [assumption|]. split.
  - intros i Hi. destruct (Hcols i Hi) as [_ Hw].
    destruct (column_width_is_max utf opts src i (Z.max 0 (PQntuples src)) ltac:(lia))
      as (Hname & Hvals & Hone).
    eexists. split; [exact Hw|]. split; [exact Hname|]. split.
    + intros r Hr. apply Hvals. lia.
    + destruct Hone as [Hone|(r & Hr & Hone)]; [left; assumption|].
      right. exists r. split; [lia|assumption].
  - intros i Hi. apply (Hrest i Hi).
Qed.

Lemma complete_run_widths_witness :
  exists s',
    pg_exec_query sample_utf sample_oids sample_table (mkOptions true (txt "select"))
                  0 true sample_state = inr (Returned true s')
    /\ (forall i, 0 <= i < PQnfields sample_table ->
          exists w,
            list_get (widths (st_pdesc s')) i = Some w
            /\ fst (field_info sample_utf (mkOptions true (txt "select"))
                               (c_str (PQfname sample_table i)) false) <= w
            /\ (forall r, 0 <= r < PQntuples sample_table ->
                  fst (field_info sample_utf (mkOptions true (txt "select"))
                                  (c_str (PQgetvalue sample_table r i)) false) <= w)
            /\ (w = fst (field_info sample_utf (mkOptions true (txt "select"))
                                    (c_str (PQfname sample_table i)) false)
                \/ exists r, 0 <= r < PQntuples sample_table
                     /\ w = fst (field_info sample_utf (mkOptions true (txt "select"))
                                            (c_str (PQgetvalue sample_table r i)) false)))
    /\ (forall i, PQnfields sample_table <= i ->
          list_get (widths (st_pdesc s')) i = list_get (widths (st_pdesc sample_state)) i).
Proof.
  apply (complete_run_widths sample_utf sample_oids sample_table
           (mkOptions true (txt "select")) 0%nat true sample_state).
  sample_runs_through.
Defined.

(** X13. After a complete run the layout has the column count of the
    result, [has_header] is true, and the alignment class of each column is
    [column_type_class] of the type the result declares for it, whatever
    the data rows contain; entries of [types] beyond the columns are
    untouched. *)
Theorem complete_run_types :
  forall (utf : utf_dsplen_fn) (oid : pg_type_d) (src : Source) (opts : Options)
         (rb : ptr) (garbage : bool) (s : state),
    runs_through src s rb ->
    exists s',
      pg_exec_query utf oid src opts rb garbage s = inr (Returned true s')
      /\ pd_nfields (st_pdesc s') = PQnfields src
      /\ has_header (st_pdesc s') = true
      /\ (forall i, 0 <= i < PQnfields src ->
            list_get (types (st_pdesc s')) i
            = Some (column_type_class oid (PQftype src i)))
      /\ (forall i, PQnfields src <= i ->
            list_get (types (st_pdesc s')) i = list_get (types (st_pdesc s)) i).
Proof.
  intros utf oid src opts rb garbage s Hrun.
  destruct (pg_exec_query_runs utf oid src opts rb garbage s Hrun)
    as (s' & tail & Hret & _ & _ & _ & _ & (Hnf & Hhh & _ & _ & _ & Hcols & Hrest)).
  exists s'. split; [assumption|]. split; [assumption|]. split; [assumption|]. split.
  - intros i Hi. apply (Hcols i Hi).
  - intros i Hi. apply (Hrest i Hi).
Qed.

Lemma complete_run_types_witness :
  exists s',
    pg_exec_query sample_utf sample_oids sample_table (mkOptions true (txt "select"))
                  0 true sample_state = inr (Returned true s')
    /\ pd_nfields (st_pdesc s') = PQnfields sample_table
    /\ has_header (st_pdesc s') = true
    /\ (forall i, 0 <= i < PQnfields sample_table ->
          list_get (types (st_pdesc s')) i
          = Some (column_type_class sample_oids (PQftype sample_table i)))
    /\ (forall i, PQnfields sample_table <= i ->
          list_get (types (st_pdesc s')) i = list_get (types (st_pdesc sample_state)) i).
Proof.
  apply (complete_run_types sample_utf sample_oids sample_table
           (mkOptions true (txt "select")) 0%nat true sample_state).
  sample_runs_through.
Defined.

(** X14. After a complete run the forward traversal of the store from the
    caller's bucket yields one record for the header followed by one record
    per data row, in the order of the result; the header record holds the
    column names and the record of data row [r] holds the values of row
    [r], each field reading back as the text libpq supplied; the chain
    invariant holds. *)
Theorem complete_run_store :
  forall (utf : utf_dsplen_fn) (oid : pg_type_d) (src : Source) (opts : Options)
         (rb : ptr) (garbage : bool) (s : state),
    runs_through src s rb ->
    exists s' tail recs,
      pg_exec_query utf oid src opts rb garbage s = inr (Returned true s')
      /\ chain_invariant (st_heap s') rb tail = true
      /\ stored_records (st_heap s') rb = Some recs
      /\ length recs = S (Z.to_nat (PQntuples src))
      /\ (exists row m, recs !! 0%nat = Some (row, m)
                        /\ holds_texts row (PQfname src) (PQnfields src))
      /\ (forall r, 0 <= r < PQntuples src ->
            exists row m, recs !! S (Z.to_nat r) = Some (row, m)
                          /\ holds_texts row (PQgetvalue src r) (PQnfields src)).
Proof.
  intros utf oid src opts rb garbage s Hrun.
  destruct (pg_exec_query_runs utf oid src opts rb garbage s Hrun)
    as (s' & tail & Hret & _ & _ & _ & (front & bt & recs & Hch & _ & Hrs & Hrows) & _).
  exists s', tail, recs. split; [assumption|].
  split; [apply chain_invariant_chained; eauto|]. split; [assumption|].
  assert (Hlook : forall j row, built_rows src (Z.max 0 (PQntuples src)) !! j = Some row ->
                    exists m, recs !! j = Some (row, m)).
  { intros j row Hj. rewrite <- Hrows, list_lookup_fmap in Hj.
    destruct (recs !! j) as [[row' m]|]; [|discriminate].
    injection Hj as <-. eauto. }
  split; [|split].
  - apply (f_equal length) in Hrows. rewrite length_map in Hrows. rewrite Hrows.
    unfold built_rows. simpl. rewrite length_map, length_range. f_equal. lia.
  - destruct (Hlook 0%nat _ eq_refl) as [m Hm].
    eexists _, m. split; [exact Hm|]. apply packed_row_holds_texts.
  - intros r Hr.
    destruct (Hlook (S (Z.to_nat r)) (packed_row (PQgetvalue src r) (PQnfields src)))
      as [m Hm].
    { unfold built_rows. simpl. rewrite list_lookup_fmap, range_lookup by lia.
      reflexivity. }
    eexists _, m. split; [exact Hm|]. apply packed_row_holds_texts.
Qed.

Lemma complete_run_store_witness :
  exists s' tail recs,
    pg_exec_query sample_utf sample_oids sample_table (mkOptions true (txt "select"))
                  0 true sample_state = inr (Returned true s')
    /\ chain_invariant (st_heap s') 0 tail = true
    /\ stored_records (st_heap s') 0 = Some recs
    /\ length recs = S (Z.to_nat (PQntuples sample_table))
    /\ (exists row m, recs !! 0%nat = Some (row, m)
                      /\ holds_texts row (PQfname sample_table) (PQnfields sample_table))
    /\ (forall r, 0 <= r < PQntuples sample_table ->
          exists row m, recs !! S (Z.to_nat r) = Some (row, m)
                        /\ holds_texts row (PQgetvalue sample_table r)
                                       (PQnfields sample_table)).
Proof.
  apply (complete_run_store sample_utf sample_oids sample_table
           (mkOptions true (txt "select")) 0%nat true sample_state).
  sample_runs_through.
Defined.

(** X15. When one of the two allocations for the header row fails (the
    connection and the query having succeeded, with at most 1024 columns),
    the call does not return: it calls [PQclear], [PQfinish] and
    [leave_ncurses("out of memory")] in that order; the store holds no row
    and [*err] is as the caller left it. *)
Theorem header_allocation_failure_exits :
  forall (utf : utf_dsplen_fn) (oid : pg_type_d) (src : Source) (opts : Options)
         (rb : ptr) (garbage : bool) (s : state) (b : RowBucketType),
    st_heap s !! rb = Some b ->
    connection_ok src = true -> tuples_ok src = true ->
    0 <= PQnfields src <= 1024 ->
    length (types (st_pdesc s)) = 1024%nat ->
    malloc_ok src (st_nmalloc s) = false \/ malloc_ok src (S (st_nmalloc s)) = false ->
    exists s',
      pg_exec_query utf oid src opts rb garbage s = inr (Exited s')
      /\ st_trace s' = st_trace s ++ [PQconnectdbParams; PQexec (query opts);
                                      PQclear true; PQfinish;
                                      leave_ncurses "out of memory"]
      /\ st_heap s' = <[rb := reset_bucket b]> (st_heap s)
      /\ stored_records (st_heap s') rb = Some []
      /\ st_err s' = st_err s.
Proof.
  intros utf oid src opts rb garbage s b Hb Hc Ht Hn Hlt Hfail.
  set (n := PQnfields src) in *.
  set (pdA := mkDesc n true (types (st_pdesc s)) (widths (st_pdesc s))
                     (pd_multilines (st_pdesc s))).
  destruct (types_loop oid src pdA n) as (pd1 & Htypes & _).
  { simpl. lia. }
  unfold pg_exec_query.
  repeat first [progress run_steps | progress cbv beta].
  rewrite Hb. repeat first [progress run_steps | progress cbv beta].
  rewrite Hc. repeat first [progress run_steps | progress cbv beta].
  rewrite Ht. repeat first [progress run_steps | progress cbv beta].
  fold n. destruct (Z.gtb_spec n 1024) as [Hbig|_]; [lia|].
  repeat first [progress run_steps | progress cbv beta].
  fold pdA. rewrite Htypes.
  repeat first [progress run_steps | progress cbv beta].
  destruct (malloc_ok src (st_nmalloc s)) eqn:H1.
  - destruct Hfail as [Hfail|Hfail]; [discriminate|].
    repeat first [progress run_steps | progress cbv beta].
    rewrite Hfail. repeat first [progress run_steps | progress cbv beta].
    eexists. split; [reflexivity|]. cbn [st_heap st_err st_trace].
    rewrite <- !app_assoc. split; [reflexivity|]. split; [reflexivity|].
    split; [apply stored_records_reset; assumption|reflexivity].
  - repeat first [progress run_steps | progress cbv beta].
    eexists. split; [reflexivity|]. cbn [st_heap st_err st_trace].
    rewrite <- !app_assoc. split; [reflexivity|]. split; [reflexivity|].
    split; [apply stored_records_reset; assumption|reflexivity].
Qed.

Lemma header_allocation_failure_exits_witness :
  exists s',
    pg_exec_query sample_utf sample_oids short_of_memory_source
                  (mkOptions false (txt "select 1")) 0 false sample_state
    = inr (Exited s')
    /\ st_trace s' = st_trace sample_state
                     ++ [PQconnectdbParams; PQexec (query (mkOptions false (txt "select 1")));
                         PQclear true; PQfinish; leave_ncurses "out of memory"]
    /\ st_heap s' = <[0%nat := reset_bucket empty_bucket]> (st_heap sample_state)
    /\ stored_records (st_heap s') 0 = Some []
    /\ st_err s' = st_err sample_state.
Proof.
  apply (header_allocation_failure_exits sample_utf sample_oids short_of_memory_source
           (mkOptions false (txt "select 1")) 0%nat false sample_state empty_bucket).
  - reflexivity.
  - reflexivity.
  - reflexivity.
  - simpl. lia.
  - reflexivity.
  - right. reflexivity.
Defined.

(** X16. The message of a failed connection or of a failed query is
    formatted into the 1024 bytes of [errmsg] without a bound: when the
    prefix and libpq's message have 1024 characters or more, [sprintf]
    writes past the buffer and the behaviour of the call is undefined. *)
Theorem long_error_message_overflows :
  forall (utf : utf_dsplen_fn) (oid : pg_type_d) (src : Source) (opts : Options)
         (rb : ptr) (garbage : bool) (s : state) (b : RowBucketType),
    st_heap s !! rb = Some b ->
    (connection_ok src = false
     /\ 1024 <= Z.of_nat (length (txt "Connection to database failed: "
                                  ++ c_str (connect_error src))))
    \/ (connection_ok src = true /\ tuples_ok src = false
        /\ 1024 <= Z.of_nat (length (txt "Query doesn't return data: "
                                     ++ c_str (exec_error src)))) ->
    pg_exec_query utf oid src opts rb garbage s = inr Undefined.
Proof.
  intros utf oid src opts rb garbage s b Hb Hlong.
  unfold pg_exec_query. run_steps. rewrite Hb. run_steps.
  destruct Hlong as [(Hc & Hlen)|(Hc & Ht & Hlen)]; unfold txt in Hlen.
  - rewrite Hc. run_steps. unfold sprintf_errmsg.
    destruct (Z.ltb_spec (Z.of_nat (length (list_ascii_of_string "Connection to database failed: " ++ c_str (connect_error src)))) 1024);
      [lia|reflexivity].
  - rewrite Hc. run_steps. rewrite Ht. run_steps. unfold sprintf_errmsg.
    destruct (Z.ltb_spec (Z.of_nat (length (list_ascii_of_string "Query doesn't return data: " ++ c_str (exec_error src)))) 1024);
      [lia|reflexivity].
Qed.

Lemma long_error_message_overflows_witness :
  pg_exec_query sample_utf sample_oids long_error_source
                (mkOptions false (txt "select 1")) 0 false sample_state
  = inr Undefined.
Proof.
  apply (long_error_message_overflows sample_utf sample_oids long_error_source
           (mkOptions false (txt "select 1")) 0%nat false sample_state empty_bucket).
  - reflexivity.
  - left. split; [reflexivity|]. vm_compute. discriminate.
Defined.

(** ** The multiline flags with force8bit *)

Lemma has_line_break_c_str t : has_line_break (c_str t) = has_line_break t.
Proof. unfold has_line_break. rewrite c_str_idem. reflexivity. Qed.

Lemma breaks_before_succ text k :
  0 <= k -> breaks_before text (k + 1) = breaks_before text k || has_line_break (text k).
Proof.
  intros Hk. unfold breaks_before. rewrite range_succ, existsb_app by assumption.
  simpl. rewrite orb_false_r. reflexivity.
Qed.

(** X17. With [force8bit] the flag recorded for a column of the header is
    not "the column name has a line break": [multiline_col] is never
    cleared between columns, so the flag of column [i] is the content the
    uninitialised local had on entry, or-ed with "one of the names of
    columns 0 to [i] has a line break". *)
Theorem header_flags_accumulate_with_force8bit :
  forall (utf : utf_dsplen_fn) (src : Source) (opts : Options) (pd0 : PrintDataDesc)
         (n : Z) (garbage : bool),
    force8bit opts = true ->
    0 <= n ->
    n <= Z.of_nat (length (widths pd0)) ->
    n <= Z.of_nat (length (pd_multilines pd0)) ->
    offset (PQfname src) n <= INT_MAX ->
    exists f,
      for_each (range n) (store_header_field utf src opts)
               (mkFill (array_new (size_t_wrap (row_size (PQfname src) n))) 0
                       (array_new n) pd0 false garbage) = Some f
      /\ forall i, 0 <= i < n ->
           list_get (pd_multilines (f_pdesc f)) i
           = Some (garbage || breaks_before (PQfname src) (i + 1)).
Proof.
  intros utf src opts pd0 n garbage H8 Hn Hnw Hnm Hfit.
  rewrite fresh_buffer_size by assumption.
  rewrite (for_each_ext _ (fun i => store_field utf opts (PQfname src i) header_update i))
    by (intros; apply store_header_field_eq).
  destruct (fill_loop utf opts (PQfname src) header_update n
              (fun k pd mcol _ =>
                 mcol = garbage || breaks_before (PQfname src) k
                 /\ length (widths pd) = length (widths pd0)
                 /\ length (pd_multilines pd) = length (pd_multilines pd0)
                 /\ forall i, 0 <= i < k ->
                      list_get (pd_multilines pd) i
                      = Some (garbage || breaks_before (PQfname src) (i + 1)))
              pd0 false garbage) as (f & Hrun & _ & _ & _ & _ & Hflags).
  - assumption.
  - split; [unfold breaks_before; simpl; rewrite orb_false_r; reflexivity|].
    split; [reflexivity|]. split; [reflexivity|]. intros i Hi. lia.
  - intros k pd mcol mrow Hk (Hmc & Hlw & Hlm & Hdone).
    assert (Hflag : snd (field_info utf opts (c_str (PQfname src k)) mcol)
                    = garbage || breaks_before (PQfname src) (k + 1)).
    { unfold field_info. rewrite H8, field_info_8bit_flag, has_line_break_c_str.
      rewrite Hmc, breaks_before_succ by lia. rewrite orb_assoc. reflexivity. }
    unfold header_update. rewrite !list_set_Some by lia. simpl.
    eexists. split; [reflexivity|]. simpl. rewrite !length_insert.
    split; [exact Hflag|]. split; [assumption|]. split; [assumption|].
    intros i Hi. destruct (Z.eq_dec i k) as [->|Hne].
    + rewrite list_get_insert_eq by lia. rewrite Hflag. reflexivity.
    + rewrite list_get_insert_ne by lia. apply Hdone. lia.
  - exists f. split; assumption.
Qed.

Lemma header_flags_accumulate_with_force8bit_witness :
  exists f,
    for_each (range 2) (store_header_field sample_utf sample_table (mkOptions true []))
             (mkFill (array_new (size_t_wrap (row_size (PQfname sample_table) 2))) 0
                     (array_new 2) sample_pdesc false true) = Some f
    /\ forall i, 0 <= i < 2 ->
         list_get (pd_multilines (f_pdesc f)) i
         = Some (true || breaks_before (PQfname sample_table) (i + 1)).
Proof.
  apply (header_flags_accumulate_with_force8bit sample_utf sample_table
           (mkOptions true []) sample_pdesc 2 true).
  - reflexivity.
  - lia.
  - vm_compute. discriminate.
  - vm_compute. discriminate.
  - vm_compute. discriminate.
Defined.



(** ** Allocation failures *)









